(** * Satellite-Calculator: transit detection and catalog enumeration

    A shallow embedding of [utils/common.py]: the time grid builder
    ([make_bounded_time_list]), the transit matcher ([find_sat_events]) and
    the catalog builder ([ObservatorySatelliteFactory]).

    Instants and durations are integers counted in one fixed time unit; the
    Python code computes with floating-point Julian dates, whose ordering and
    differences are represented here by the ordering and differences of [Z].
    Python exceptions are values of [exn], carried in the left summand of
    [result]. *)

From Stdlib Require Import String Ascii DecimalString DecimalZ.
From Stdlib Require Import ZArith Lia Bool Arith List Sorted Permutation.
Import ListNotations.
Open Scope Z_scope.

(* ================================================================== *)
(** * Part I: the program *)
(* ================================================================== *)

Definition Instant := Z.
Definition Duration := Z.

(** ** Exceptions *)

Inductive exn : Type :=
| ValueError
| IndexError
| TypeError
| OtherError (tag : string).

Definition result (A : Type) : Type := (exn + A)%type.

Definition ret {A : Type} (a : A) : result A := inr a.
Definition raise {A : Type} (e : exn) : result A := inl e.

Definition bind {A B : Type} (m : result A) (k : A -> result B) : result B :=
  match m with
  | inl e => inl e
  | inr a => k a
  end.

Notation "x <- m ;; k" := (bind m (fun x => k))
  (at level 61, m at next level, right associativity).

(** ** Transits *)

(** Modelled from the spec: [DayTransits] lives in [utils/transit], which is
    not among the sources.  A transit owns a start instant, an optional end
    instant (Python [None] until a SET event is matched) and the ordered
    collection of its culmination instants. *)
Record DayTransits : Type := mkDayTransits {
  start : Instant;
  end_ : option Instant;
  culminations : list Instant
}.

(** [new_transit = DayTransits(...); new_transit.start = TimeObj(time)] *)
Definition new_transit (time : Instant) : DayTransits :=
  mkDayTransits time None [].

(** [tr.end = t] *)
Definition set_end (tr : DayTransits) (t : Instant) : DayTransits :=
  mkDayTransits (start tr) (Some t) (culminations tr).

(** Modelled from the spec: [DayTransits.add] is defined in [utils/transit],
    which is not among the sources.  Section 4.2, step 3 and section 9 of the
    specification describe the observed behaviour: every culmination is
    attached unconditionally, whatever the start and the end of the transit
    are. *)
Definition add (tr : DayTransits) (time : Instant) : DayTransits :=
  mkDayTransits (start tr) (end_ tr) (culminations tr ++ [time]).

(** ** Raw events: [(time, flag)] with flag 0 = rise, 1 = culminate, 2 = set *)

Definition RawEvent : Type := (Instant * Z)%type.

(** First loop of [find_sat_events] (lines 85-89): one transit is appended
    for every event whose flag is 0. *)
Definition open_transits (events_zipped : list RawEvent) : list DayTransits :=
  fold_left
    (fun rv_transits ev =>
       let '(time, flag) := ev in
       if flag =? 0 then rv_transits ++ [new_transit time] else rv_transits)
    events_zipped [].

(** The test of the [while] body (lines 96-99):
    [(end is None or end.time < t) and start.time < t]. *)
Definition eligible (tr : DayTransits) (test_time_obj : Instant) : bool :=
  (match end_ tr with
   | None => true
   | Some e => e <? test_time_obj
   end)
  && (start tr <? test_time_obj).

(** [rv_transits[i].end = t], an in-place update of one list cell. *)
Fixpoint assign_end (rv_transits : list DayTransits) (i : nat) (t : Instant)
  : list DayTransits :=
  match rv_transits, i with
  | [], _ => []
  | tr :: rest, O => set_end tr t :: rest
  | tr :: rest, S i' => tr :: assign_end rest i' t
  end.

(** The [while test_i < len(rv_transits)] loop (lines 95-103).  The loop has
    no syntactic bound, so the embedding takes fuel: [None] means that the
    fuel ran out before the loop condition became false. *)
Fixpoint scan (fuel : nat) (test_time_obj : Instant)
  (rv_transits : list DayTransits) (test_i : nat)
  : option (list DayTransits) :=
  match fuel with
  | O => None
  | S fuel' =>
      match nth_error rv_transits test_i with
      | None => Some rv_transits
      | Some tr =>
          if eligible tr test_time_obj
          then scan fuel' test_time_obj
                 (assign_end rv_transits test_i test_time_obj) 0
          else scan fuel' test_time_obj rv_transits (S test_i)
      end
  end.

(** Second loop of [find_sat_events] (lines 91-103): the events are visited
    in input order and every event whose flag is 2 runs the scan. *)
Fixpoint match_sets (fuel : nat) (events_zipped : list RawEvent)
  (rv_transits : list DayTransits) : option (list DayTransits) :=
  match events_zipped with
  | [] => Some rv_transits
  | (time, flag) :: rest =>
      if flag =? 2
      then match scan fuel time rv_transits 0 with
           | None => None
           | Some rv' => match_sets fuel rest rv'
           end
      else match_sets fuel rest rv_transits
  end.

(** Inner loop of lines 105-108 for one transit. *)
Definition attach_culminations (events_zipped : list RawEvent)
  (test_trans : DayTransits) : DayTransits :=
  fold_left
    (fun tr ev =>
       let '(time, flag) := ev in
       if flag =? 1 then add tr time else tr)
    events_zipped test_trans.

(** [find_sat_events] (lines 73-110); [events_zipped] stands for the answer
    of the propagator's [find_events]. *)
Definition find_sat_events (fuel : nat) (events_zipped : list RawEvent)
  : option (list DayTransits) :=
  match match_sets fuel events_zipped (open_transits events_zipped) with
  | None => None
  | Some rv_transits =>
      Some (map (attach_culminations events_zipped) rv_transits)
  end.

(** Fuel that is enough for any scan over at most [n] transits. *)
Definition scan_fuel (n : nat) : nat := (S n * S n)%nat.

(** *** Views of the input used to state the results *)

Definition rise_instants (events : list RawEvent) : list Instant :=
  map fst (filter (fun ev => snd ev =? 0) events).

Definition culmination_instants (events : list RawEvent) : list Instant :=
  map fst (filter (fun ev => snd ev =? 1) events).

Definition set_instants (events : list RawEvent) : list Instant :=
  map fst (filter (fun ev => snd ev =? 2) events).

(** Chronological order of the input (ties allowed). *)
Fixpoint chronological (events : list RawEvent) : bool :=
  match events with
  | [] => true
  | (t, _) :: rest =>
      match rest with
      | [] => true
      | (t', _) :: _ => (t <=? t') && chronological rest
      end
  end.

(** What one SET instant does to one transit once its scan is over. *)
Definition close_at (t : Instant) (tr : DayTransits) : DayTransits :=
  if eligible tr t then set_end tr t else tr.

(** Index of the first eligible transit, in creation order. *)
Fixpoint first_eligible (t : Instant) (rv : list DayTransits) : option nat :=
  match rv with
  | [] => None
  | tr :: rest =>
      if eligible tr t then Some O
      else option_map S (first_eligible t rest)
  end.

(** *** The matching rule in the words of the specification

    Section 4.2, step 2: a SET instant goes to the first transit, in
    creation order, whose end is still null or later than the SET instant,
    provided its start is strictly before the SET instant; after a
    successful assignment the scan restarts from index 0; if no transit
    qualifies the event is dropped. *)
Definition stated_eligible (tr : DayTransits) (t : Instant) : bool :=
  (match end_ tr with
   | None => true
   | Some e => t <? e
   end)
  && (start tr <? t).

Fixpoint stated_scan (fuel : nat) (t : Instant) (rv : list DayTransits)
  (i : nat) : option (list DayTransits) :=
  match fuel with
  | O => None
  | S fuel' =>
      match nth_error rv i with
      | None => Some rv
      | Some tr =>
          if stated_eligible tr t
          then stated_scan fuel' t (assign_end rv i t) 0
          else stated_scan fuel' t rv (S i)
      end
  end.

Fixpoint stated_match_sets (fuel : nat) (events : list RawEvent)
  (rv : list DayTransits) : option (list DayTransits) :=
  match events with
  | [] => Some rv
  | (time, flag) :: rest =>
      if flag =? 2
      then match stated_scan fuel time rv 0 with
           | None => None
           | Some rv' => stated_match_sets fuel rest rv'
           end
      else stated_match_sets fuel rest rv
  end.

Definition stated_find_sat_events (fuel : nat) (events : list RawEvent)
  : option (list DayTransits) :=
  match stated_match_sets fuel events (open_transits events) with
  | None => None
  | Some rv => Some (map (attach_culminations events) rv)
  end.

(** ** Time grid builder *)

(** The sampler [get_off_list] comes from [utils/time_utils], which is not
    among the sources; [make_bounded_time_list] takes it as an argument.  Its
    fourth argument selects the shape of the answer ([5] here). *)
Definition Sampler : Type :=
  Instant -> Instant -> Duration -> Z -> result (list Instant).

(** [make_bounded_time_list] (lines 21-35). *)
Definition make_bounded_time_list (get_off_list : Sampler)
  (start_time end_time : Instant) (step_size : Duration)
  : result (list Instant) :=
  let start := start_time in
  let end' := end_time in
  xs <- get_off_list start end' step_size 5 ;;
  let time_list := filter (fun x => (start <? x) && (x <? end')) xs in
  let time_list := start :: time_list in      (* appendleft *)
  let time_list := time_list ++ [end'] in     (* append *)
  ret time_list.

(** Modelled from the spec: [get_off_list] of [utils/time_utils] is missing.
    Section 4.1 speaks of samples "spaced by step" and of a natural stepping
    that may produce a sample equal to either bound: the samples are
    [start + k * step] for [k = 0, 1, ...] as long as they do not pass [end].
    The model is meant for [start < end] and [step > 0]; what the sampler
    does on other arguments is not known from the sources, and no result
    below depends on the value given here. *)
Definition stepping_get_off_list : Sampler :=
  fun start end' step _mode =>
    ret (map (fun k => start + Z.of_nat k * step)
             (seq 0 (Z.to_nat ((end' - start) / step + 1)))).

Definition is_error {A : Type} (r : result A) : bool :=
  match r with
  | inl _ => true
  | inr _ => false
  end.

(** Strictly increasing sequences of instants. *)
Definition strictly_increasing (l : list Instant) : Prop :=
  StronglySorted Z.lt l.

(** ** Catalog builder *)

(** A tracked object: the part of skyfield's [EarthSatellite] that the
    catalog builder reads.  [jdsatepoch] is the epoch of the element set
    ([sat.model.jdsatepoch]); [elements] stands for the rest of the record. *)
Record EarthSatellite : Type := mkSat {
  name : string;
  jdsatepoch : Z;
  elements : Z
}.

(** [sat.epoch]: the epoch as an instant.  The model reads it off the same
    number as [sat.model.jdsatepoch], the field that lines 179 and 205 use;
    where a record carries a finer epoch than that field, the statements
    below are about the field. *)
Definition epoch (sat : EarthSatellite) : Instant := jdsatepoch sat.

(** Python's [str] on the epoch: its decimal numeral. *)
Definition str (z : Z) : string := NilEmpty.string_of_int (Z.to_int z).

(** The dictionary key of line 179:
    [sat.name + "_" + str(sat.model.jdsatepoch)]. *)
Definition sat_key (sat : EarthSatellite) : string :=
  (name sat ++ "_" ++ str (jdsatepoch sat))%string.

(** *** Python dictionaries, in insertion order *)

Definition dict (V : Type) : Type := list (string * V).

(** [d[k] = v]: an existing key keeps its position and gets the new value,
    a new key goes to the end. *)
Fixpoint dict_set {V : Type} (k : string) (v : V) (d : dict V) : dict V :=
  match d with
  | [] => [(k, v)]
  | (k', v') :: d' =>
      if String.eqb k k' then (k, v) :: d'
      else (k', v') :: dict_set k v d'
  end.

(** [d[k].append(v)] on a [defaultdict(list)]. *)
Fixpoint dict_append {V : Type} (k : string) (v : V) (d : dict (list V))
  : dict (list V) :=
  match d with
  | [] => [(k, [v])]
  | (k', vs) :: d' =>
      if String.eqb k k' then (k', vs ++ [v]) :: d'
      else (k', vs) :: dict_append k v d'
  end.

Definition dict_values {V : Type} (d : dict V) : list V := map snd d.

(** The dictionary comprehension of lines 178-180. *)
Definition uniq_sats (local_active_sats : list EarthSatellite)
  : dict EarthSatellite :=
  fold_left (fun d sat => dict_set (sat_key sat) sat d) local_active_sats [].

(** Lines 178-181 of [_make_active_sats]: from the concatenated records to
    [self.active_sats]. *)
Definition dedup (local_active_sats : list EarthSatellite)
  : list EarthSatellite :=
  dict_values (uniq_sats local_active_sats).

(** *** The factory object *)

Record Observatories : Type := mkObs {
  obs_lat : Z;
  obs_long : Z;
  obs_ele : Z;
  obs_name : string
}.

Definition Slot : Type := (Instant * Duration * EarthSatellite)%type.

Definition slot_start (s : Slot) : Instant := fst (fst s).
Definition slot_length (s : Slot) : Duration := snd (fst s).
Definition slot_sat (s : Slot) : EarthSatellite := snd s.

(** The attributes of [ObservatorySatelliteFactory] that the three
    construction steps and [_make_sat_list] read or write.  The display
    time zone and the loader flags, which no step branches on, are left
    out. *)
Record Factory : Type := mkFactory {
  start_date : string;
  today_utc : Instant;
  start_utc : option Instant;
  end_days : Z;
  end_utc : option Instant;
  tles : list string;
  chain_tles : bool;
  active_sats : list EarthSatellite;
  active_observatories : list Observatories
}.

(** The collaborators outside of [utils/common.py]: the [strptime] of
    Python's [datetime] for the format [%Y-%m-%d] (it raises [ValueError] on
    a string that does not parse), the loader [make_locally_active_sats]
    (per source, given the content of [self.start_utc]; its flags are fixed
    for one factory) and the content of [config/obs_data.yaml] (reading it
    may raise).  The loader is modelled where it returns: an exception of
    the loader is outside of this model. *)
Record World : Type := mkWorld {
  strptime : string -> result Instant;
  make_locally_active_sats :
    option Instant -> string -> list EarthSatellite;
  obs_data : result (list (string * (Z * Z * Z)))
}.

(** Modelled from the spec: [TimeObj.get_start_day] and [TimeDeltaObj] are
    defined in [utils/time_utils], which is not among the sources.  The unit
    of time is the second: the start of a day is the last multiple of 86400
    and a number of days is that many times 86400 seconds. *)
Definition seconds_per_day : Z := 86400.

Definition get_start_day (t : Instant) : Instant :=
  t - t mod seconds_per_day.

Definition TimeDeltaObj_days (days : Z) : Duration := days * seconds_per_day.

(** [try: ... except ValueError: ...]: only [ValueError] is caught. *)
Definition try_except_ValueError {A : Type} (body : result A)
  (handler : result A) : result A :=
  match body with
  | inl ValueError => handler
  | other => other
  end.

(** [_make_start_utc] (lines 153-162). *)
Definition _make_start_utc (w : World) (self : Factory) : result Factory :=
  s <- try_except_ValueError
         (d <- strptime w (start_date self) ;; ret (get_start_day d))
         (ret (get_start_day (today_utc self))) ;;
  ret (mkFactory (start_date self) (today_utc self)
         (Some s) (end_days self)
         (Some (s + TimeDeltaObj_days (end_days self)))
         (tles self) (chain_tles self)
         (active_sats self) (active_observatories self)).

(** [_make_active_sats] (lines 164-181). *)
Definition _make_active_sats (w : World) (self : Factory) : result Factory :=
  let local_active_sats :=
    concat (map (make_locally_active_sats w (start_utc self)) (tles self)) in
  ret (mkFactory (start_date self) (today_utc self)
         (start_utc self) (end_days self) (end_utc self)
         (tles self) (chain_tles self)
         (dedup local_active_sats) (active_observatories self)).

(** [_make_active_obs] (lines 183-193). *)
Definition _make_active_obs (w : World) (self : Factory) : result Factory :=
  data <- obs_data w ;;
  ret (mkFactory (start_date self) (today_utc self)
         (start_utc self) (end_days self) (end_utc self)
         (tles self) (chain_tles self) (active_sats self)
         (active_observatories self
            ++ map (fun entry =>
                      let '(n, (la, lo, el)) := entry in mkObs la lo el n)
                   data)).

(** [__init__] (lines 114-151). *)
Definition init (w : World) (today : Instant) (start_date : string)
  (end_days : Z) (tles : list string) (chain_tles : bool) : result Factory :=
  let self :=
    mkFactory start_date today None end_days None tles chain_tles [] [] in
  self <- _make_start_utc w self ;;
  self <- _make_active_sats w self ;;
  _make_active_obs w self.

(** *** Chaining *)

(** [sorted(sat_list, key=...)]: a stable sort, here by insertion. *)
Fixpoint insert_by {A : Type} (key : A -> Z) (x : A) (l : list A) : list A :=
  match l with
  | [] => [x]
  | y :: l' =>
      if key x <? key y then x :: y :: l' else y :: insert_by key x l'
  end.

Definition sorted {A : Type} (key : A -> Z) (l : list A) : list A :=
  fold_left (fun acc x => insert_by key x acc) l [].

(** [numpy.diff]: the differences of neighbours; empty for fewer than two
    values. *)
Fixpoint numpy_diff (l : list Z) : list Z :=
  match l with
  | [] => []
  | a :: rest =>
      match rest with
      | [] => []
      | b :: _ => (b - a) :: numpy_diff rest
      end
  end.

(** [l[-1]]: the last element, [IndexError] on the empty list. *)
Definition last_item {A : Type} (l : list A) : result A :=
  match rev l with
  | [] => raise IndexError
  | x :: _ => ret x
  end.

(** [zip] of three lists, as long as the shortest. *)
Fixpoint zip3 {A B C : Type} (la : list A) (lb : list B) (lc : list C)
  : list (A * B * C) :=
  match la, lb, lc with
  | a :: la', b :: lb', c :: lc' => (a, b, c) :: zip3 la' lb' lc'
  | _, _, _ => []
  end.

(** Modelled from the spec: [TimeObj.get_mjd] and [TimeDeltaObj.total_days]
    belong to [utils/time_utils], which is not among the sources; they read
    an instant and a duration as numbers in the common unit of time. *)
Definition get_mjd (x : Instant) : Z := x.
Definition total_days (d : Duration) : Z := d.

(** Lines 199-201: grouping by name in a [defaultdict(list)]. *)
Definition organized_sats (sats : list EarthSatellite)
  : dict (list EarthSatellite) :=
  fold_left (fun d sat => dict_append (name sat) sat d) sats [].

(** Body of the loop of lines 204-213 for one group. *)
Definition chain_group (end_utc : Instant) (sat_list : list EarthSatellite)
  : result (list Slot) :=
  let sat_list := sorted jdsatepoch sat_list in
  let start_dates := map epoch sat_list in
  let start_dates := filter (fun x => x <? end_utc) start_dates in
  let dates_diff := numpy_diff (map get_mjd start_dates) in
  last_start <- last_item start_dates ;;
  let dates_diff := dates_diff ++ [total_days (end_utc - last_start)] in
  ret (zip3 start_dates dates_diff sat_list).

(** The loop of lines 203-213: the first group that raises aborts it. *)
Fixpoint chain_groups (end_utc : Instant)
  (groups : list (list EarthSatellite)) (chained_sats : list Slot)
  : result (list Slot) :=
  match groups with
  | [] => ret chained_sats
  | sat_list :: rest =>
      slots <- chain_group end_utc sat_list ;;
      chain_groups end_utc rest (chained_sats ++ slots)
  end.

(** What [_make_sat_list] stores in [self._sat_list]. *)
Inductive SatList : Type :=
| Chained (slots : list Slot)
| Plain (sats : list EarthSatellite).

(** [_make_sat_list] (lines 195-216), from a factory whose [_sat_list] is
    still [None].  Before [_make_start_utc] has run [self.end_utc] is
    [None], and the comparison of the first start date with it raises
    [TypeError]. *)
Definition _make_sat_list (self : Factory) : result SatList :=
  if chain_tles self then
    let groups := dict_values (organized_sats (active_sats self)) in
    match end_utc self with
    | None =>
        match groups with
        | [] => ret (Chained [])
        | _ :: _ => raise TypeError
        end
    | Some e =>
        slots <- chain_groups e groups [] ;;
        ret (Chained slots)
    end
  else ret (Plain (active_sats self)).


(** Windows laid end to end from [a] to [b]. *)
Fixpoint back_to_back (a b : Instant) (slots : list Slot) : Prop :=
  match slots with
  | [] => a = b
  | s :: rest =>
      slot_start s = a /\ 0 <= slot_length s
      /\ back_to_back (a + slot_length s) b rest
  end.

(** *** Auxiliary notions of the transit matcher *)

(** One finished scan closes every eligible transit. *)
Definition close_all (t : Instant) (rv : list DayTransits)
  : list DayTransits :=
  map (close_at t) rv.

(** Number of transits that a scan for [t] still has to close. *)
Definition count_eligible (t : Instant) (rv : list DayTransits) : nat :=
  List.length (filter (fun tr => eligible tr t) rv).

(** *** Auxiliary notions of the catalog builder *)

(** [d.get(k)] *)
Fixpoint dict_get {V : Type} (k : string) (d : dict V) : option V :=
  match d with
  | [] => None
  | (k', v) :: d' => if String.eqb k k' then Some v else dict_get k d'
  end.




(** Every entry of the dictionary sits under the key of its record. *)
Definition keyed (d : dict EarthSatellite) : Prop :=
  Forall (fun kv => fst kv = sat_key (snd kv)) d.

(** The dictionary comprehension, started from the dictionary [d]. *)
Definition uniq_from (d : dict EarthSatellite)
  (l : list EarthSatellite) : dict EarthSatellite :=
  fold_left (fun d sat => dict_set (sat_key sat) sat d) l d.

(** The slots of one group whose epochs are all kept, read off the
    ascending list of its records: every record runs until the epoch of the
    next one, the last one until [end_utc]. *)
Fixpoint chain_slots (end_utc : Instant) (l : list EarthSatellite)
  : list Slot :=
  match l with
  | [] => []
  | a :: rest =>
      match rest with
      | [] => [(epoch a, end_utc - epoch a, a)]
      | b :: _ => (epoch a, epoch b - epoch a, a) :: chain_slots end_utc rest
      end
  end.

(** Ascending order of the epochs. *)
Definition ascending (l : list EarthSatellite) : Prop :=
  StronglySorted (fun a b => jdsatepoch a <= jdsatepoch b) l.

(** A world to run the factory in: one date string parses, the only source
    delivers two element sets of one object and one of another. *)
Definition sample_world : World :=
  mkWorld
    (fun s => if String.eqb s "2024-01-01" then ret 1704067200
              else raise ValueError)
    (fun start_utc source =>
       match start_utc with
       | Some t =>
           if String.eqb source "active"
           then [mkSat "ISS" (t + 3600) 1;
                 mkSat "ISS" (t - 7200) 2;
                 mkSat "HST" (t + 3 * seconds_per_day) 3]
           else []
       | None => []
       end)
    (ret [("Apache Point"%string, (32, -105, 2788))]).

(** Occurrence of a character in a string. *)
Fixpoint has_char (c : ascii) (s : string) : bool :=
  match s with
  | EmptyString => false
  | String a s' => Ascii.eqb a c || has_char c s'
  end.


(** ** Further entry points *)

(** [get_day_transits] (lines 38-44) hands its arguments to
    [find_sat_events]. *)
Definition get_day_transits (fuel : nat) (events_zipped : list RawEvent)
  : option (list DayTransits) :=
  find_sat_events fuel events_zipped.

(** Flags that some loop of [find_sat_events] tests for. *)
Definition known_flag (ev : RawEvent) : bool :=
  (snd ev =? 0) || (snd ev =? 1) || (snd ev =? 2).

(** Modelled from the spec: [ObservatorySatellite] is defined in
    [utils/satellite], which is not among the sources; it binds one
    observatory to one tracked object. *)
Record ObservatorySatellite : Type := mkPair {
  observatory : Observatories;
  satellite : EarthSatellite
}.

(** What [__iter__] yields: [(start, window length, pair)]. *)
Definition WorkItem : Type :=
  (option Instant * Z * ObservatorySatellite)%type.

Definition item_start (it : WorkItem) : option Instant := fst (fst it).
Definition item_length (it : WorkItem) : Z := snd (fst it).
Definition item_pair (it : WorkItem) : ObservatorySatellite := snd it.

(** [len(self._sat_list)] *)
Definition sat_list_len (l : SatList) : nat :=
  match l with
  | Chained slots => List.length slots
  | Plain sats => List.length sats
  end.

(** [__len__] (lines 218-220), from a factory whose [_sat_list] is still
    [None]. *)
Definition __len__ (self : Factory) : result nat :=
  sat_list <- _make_sat_list self ;;
  ret (sat_list_len sat_list * List.length (active_observatories self))%nat.

(** [__iter__] (lines 222-252), from a factory whose [_sat_list] is still
    [None]; the items are listed in the order in which the chained
    generators yield them.  [_make_sat_list] has just stored a list of
    slots exactly when [chain_tles] is set, so the branch on [chain_tles]
    is the branch on the shape of that list. *)
Definition __iter__ (self : Factory) : result (list WorkItem) :=
  sat_list <- _make_sat_list self ;;
  match sat_list with
  | Chained slots =>
      ret (flat_map
             (fun current_obs =>
                map (fun slot : Slot =>
                       let '(start_day, calc_day, sat) := slot in
                       (Some start_day, calc_day, mkPair current_obs sat))
                    slots)
             (active_observatories self))
  | Plain sats =>
      ret (flat_map
             (fun current_obs =>
                map (fun sat =>
                       (start_utc self, end_days self,
                        mkPair current_obs sat))
                    sats)
             (active_observatories self))
  end.

(** *** Auxiliary notions for the further properties *)

(** The first occurrences of the keys of a list, in order. *)
Fixpoint distinct (l : list string) : list string :=
  match l with
  | [] => []
  | k :: l' => k :: filter (fun k' => negb (String.eqb k' k)) (distinct l')
  end.

(** The records of a list that carry the name [n]. *)
Definition named (n : string) (sats : list EarthSatellite)
  : list EarthSatellite :=
  filter (fun s => String.eqb (name s) n) sats.

(** The records of a list whose epoch is before [end_utc]. *)
Definition kept (end_utc : Instant) (l : list EarthSatellite)
  : list EarthSatellite :=
  filter (fun s => epoch s <? end_utc) l.

(** [e] is the end that the SET instants [sets] leave on a transit that
    starts at [r]: the greatest of them when it is after [r], no end
    otherwise. *)
Definition latest_set_after (sets : list Instant) (r : Instant)
  (e : option Instant) : Prop :=
  match e with
  | Some e => In e sets /\ r < e /\ forall t, In t sets -> t <= e
  | None => forall t, In t sets -> t <= r
  end.

(** The keys of a dictionary after an assignment or an append under the
    key [k]. *)
Definition add_key (k : string) (keys : list string) : list string :=
  if existsb (String.eqb k) keys then keys else keys ++ [k].

(** The entries of [self._sat_list] as [__iter__] reads them: in chain
    mode the window of the slot, otherwise the window of the factory. *)
Definition sat_list_entries (self : Factory) (l : SatList)
  : list (option Instant * Z * EarthSatellite) :=
  match l with
  | Chained slots =>
      map (fun slot : Slot =>
             (Some (slot_start slot), slot_length slot, slot_sat slot))
          slots
  | Plain sats => map (fun sat => (start_utc self, end_days self, sat)) sats
  end.

(* ================================================================== *)
(** * Part II: properties *)
(* ================================================================== *)

(** ** Transit matcher *)

Section Matcher.

Lemma open_transits_from (events : list RawEvent) :
  forall acc,
    fold_left
      (fun rv_transits ev =>
         let '(time, flag) := ev in
         if flag =? 0 then rv_transits ++ [new_transit time]
         else rv_transits)
      events acc
    = acc ++ map new_transit (rise_instants events).
Proof.
  induction events as [|[time flag] rest IH]; intros acc; simpl.
  - now rewrite app_nil_r.
  - rewrite IH. unfold rise_instants. simpl.
    destruct (flag =? 0); simpl; [now rewrite <- app_assoc | reflexivity].
Qed.

Lemma open_transits_rises (events : list RawEvent) :
  open_transits events = map new_transit (rise_instants events).
Proof. unfold open_transits. now rewrite open_transits_from. Qed.

Lemma length_filter_le {A : Type} (f : A -> bool) (l : list A) :
  (List.length (filter f l) <= List.length l)%nat.
Proof.
  induction l as [|a l IH]; simpl; [lia|].
  destruct (f a); simpl; lia.
Qed.

Lemma open_transits_length (events : list RawEvent) :
  (List.length (open_transits events) <= List.length events)%nat.
Proof.
  rewrite open_transits_rises. unfold rise_instants.
  rewrite !length_map. apply length_filter_le.
Qed.

Lemma attach_culminations_from (events : list RawEvent) :
  forall tr,
    attach_culminations events tr
    = mkDayTransits (start tr) (end_ tr)
        (culminations tr ++ culmination_instants events).
Proof.
  unfold attach_culminations, culmination_instants.
  induction events as [|[time flag] rest IH]; intros tr; simpl.
  - rewrite app_nil_r. now destruct tr.
  - rewrite IH. destruct (flag =? 1); simpl; [|reflexivity].
    now rewrite <- app_assoc.
Qed.

(** *** The scan *)

Lemma eligible_set_end (tr : DayTransits) (t : Instant) :
  eligible (set_end tr t) t = false.
Proof. unfold eligible; simpl. now rewrite Z.ltb_irrefl. Qed.

Lemma close_at_idem (t : Instant) (tr : DayTransits) :
  close_at t (close_at t tr) = close_at t tr.
Proof.
  unfold close_at. destruct (eligible tr t) eqn:E.
  - now rewrite eligible_set_end.
  - now rewrite E.
Qed.

Lemma assign_end_length (rv : list DayTransits) (t : Instant) :
  forall i, List.length (assign_end rv i t) = List.length rv.
Proof.
  induction rv as [|tr rv IH]; intros [|i]; simpl; auto.
Qed.

Lemma assign_end_count (t : Instant) (rv : list DayTransits) :
  forall i tr,
    nth_error rv i = Some tr -> eligible tr t = true ->
    S (count_eligible t (assign_end rv i t)) = count_eligible t rv.
Proof.
  unfold count_eligible.
  induction rv as [|a rv IH]; intros [|i] tr Hn He; simpl in *;
    try discriminate.
  - injection Hn as ->. now rewrite eligible_set_end, He.
  - destruct (eligible a t); simpl; erewrite IH; eauto.
Qed.

Lemma assign_end_close_all (t : Instant) (rv : list DayTransits) :
  forall i tr,
    nth_error rv i = Some tr -> eligible tr t = true ->
    close_all t (assign_end rv i t) = close_all t rv.
Proof.
  unfold close_all.
  induction rv as [|a rv IH]; intros [|i] tr Hn He; simpl in *;
    try discriminate.
  - injection Hn as ->. f_equal. unfold close_at.
    now rewrite eligible_set_end, He.
  - f_equal. eauto.
Qed.

Lemma close_all_untouched (t : Instant) (rv : list DayTransits) :
  Forall (fun tr => eligible tr t = false) rv -> close_all t rv = rv.
Proof.
  unfold close_all. induction 1 as [|a rv Ha _ IH]; simpl; [reflexivity|].
  unfold close_at at 1. now rewrite Ha, IH.
Qed.

Lemma firstn_all_none {A : Type} (l : list A) (i : nat) :
  nth_error l i = None -> firstn i l = l.
Proof.
  intros H. apply nth_error_None in H. now apply firstn_all2.
Qed.

Lemma firstn_snoc {A : Type} (l : list A) :
  forall i a, nth_error l i = Some a -> firstn (S i) l = firstn i l ++ [a].
Proof.
  induction l as [|b l IH]; intros [|i] a H; simpl in *; try discriminate.
  - now injection H as ->.
  - f_equal. now apply IH.
Qed.

(** With the transits before [test_i] already found not eligible, the scan
    ends and has closed every eligible transit. *)
Lemma scan_closes_all (t : Instant) :
  forall fuel rv i,
    (i <= List.length rv)%nat ->
    Forall (fun tr => eligible tr t = false) (firstn i rv) ->
    (count_eligible t rv * S (List.length rv) + (S (List.length rv) - i)
     <= fuel)%nat ->
    scan fuel t rv i = Some (close_all t rv).
Proof.
  induction fuel as [|fuel IH]; intros rv i Hle Hpre Hfuel.
  - exfalso. lia.
  - simpl. destruct (nth_error rv i) as [tr|] eqn:Hn.
    + assert (i < List.length rv)%nat as Hi
          by (apply nth_error_Some; congruence).
      destruct (eligible tr t) eqn:He.
      * rewrite IH.
        -- f_equal. eapply assign_end_close_all; eauto.
        -- lia.
        -- simpl. constructor.
        -- rewrite assign_end_length.
           pose proof (assign_end_count t rv i tr Hn He) as Hc.
           rewrite <- Hc, Nat.mul_succ_l in Hfuel. lia.
      * apply IH.
        -- lia.
        -- erewrite firstn_snoc by eauto.
           apply Forall_app; split; auto.
        -- lia.
    + f_equal. symmetry. apply close_all_untouched.
      now rewrite firstn_all_none in Hpre.
Qed.

Lemma count_eligible_le (t : Instant) (rv : list DayTransits) :
  (count_eligible t rv <= List.length rv)%nat.
Proof. apply length_filter_le. Qed.

Lemma scan_fuel_mono (n m : nat) :
  (n <= m)%nat -> (scan_fuel n <= scan_fuel m)%nat.
Proof. unfold scan_fuel. intros H. nia. Qed.

Lemma scan_from_zero (t : Instant) (rv : list DayTransits) (fuel : nat) :
  (scan_fuel (List.length rv) <= fuel)%nat ->
  scan fuel t rv 0 = Some (close_all t rv).
Proof.
  intros H. apply scan_closes_all; [lia|constructor|].
  pose proof (count_eligible_le t rv). unfold scan_fuel in H. nia.
Qed.

Lemma close_all_length (t : Instant) (rv : list DayTransits) :
  List.length (close_all t rv) = List.length rv.
Proof. apply length_map. Qed.

Lemma match_sets_closed (fuel : nat) (events : list RawEvent) :
  forall rv,
    (scan_fuel (List.length rv) <= fuel)%nat ->
    match_sets fuel events rv
    = Some (fold_left (fun rv t => close_all t rv) (set_instants events) rv).
Proof.
  unfold set_instants.
  induction events as [|[time flag] rest IH]; intros rv H; simpl.
  - reflexivity.
  - destruct (flag =? 2); simpl.
    + rewrite scan_from_zero by assumption.
      apply IH. now rewrite close_all_length.
    + now apply IH.
Qed.

Lemma find_sat_events_closed (events : list RawEvent) (fuel : nat) :
  (scan_fuel (List.length events) <= fuel)%nat ->
  find_sat_events fuel events
  = Some (map (attach_culminations events)
            (fold_left (fun rv t => close_all t rv) (set_instants events)
               (open_transits events))).
Proof.
  intros H. unfold find_sat_events.
  rewrite match_sets_closed; [reflexivity|].
  eapply Nat.le_trans; [|exact H].
  apply scan_fuel_mono, open_transits_length.
Qed.

(** The scan assigns the transits one at a time, lowest index first. *)
Lemma skipn_cons_nth {A : Type} (l : list A) :
  forall j a rest,
    skipn j l = a :: rest ->
    nth_error l j = Some a /\ skipn (S j) l = rest.
Proof.
  induction l as [|b l IH]; intros [|j] a rest H; simpl in *;
    try discriminate.
  - injection H as -> ->. auto.
  - apply IH in H. destruct H as [H1 H2]. split; [exact H1|].
    destruct l; exact H2.
Qed.

Lemma scan_reaches_first (t : Instant) (rv : list DayTransits) :
  forall k j fuel,
    first_eligible t (skipn j rv) = Some k ->
    scan (S k + fuel) t rv j = scan fuel t (assign_end rv (j + k) t) 0.
Proof.
  induction k as [|k IH]; intros j fuel H.
  - destruct (skipn j rv) as [|tr rest] eqn:Hs; simpl in H;
      [discriminate|].
    destruct (eligible tr t) eqn:He.
    + apply skipn_cons_nth in Hs. destruct Hs as [Hn _].
      simpl. rewrite Hn, He. now rewrite Nat.add_0_r.
    + destruct (first_eligible t rest); discriminate.
  - destruct (skipn j rv) as [|tr rest] eqn:Hs; simpl in H;
      [discriminate|].
    destruct (eligible tr t) eqn:He; [discriminate|].
    apply skipn_cons_nth in Hs. destruct Hs as [Hn Hr].
    destruct (first_eligible t rest) as [k'|] eqn:Hf; simpl in H;
      [|discriminate].
    injection H as ->.
    change (S (S k) + fuel)%nat with (S (S k + fuel)).
    cbn [scan]. rewrite Hn, He.
    rewrite IH by (now rewrite Hr).
    now rewrite Nat.add_succ_comm.
Qed.

Lemma first_eligible_none (t : Instant) (rv : list DayTransits) :
  first_eligible t rv = None ->
  Forall (fun tr => eligible tr t = false) rv.
Proof.
  induction rv as [|tr rv IH]; simpl; intros H; [constructor|].
  destruct (eligible tr t) eqn:He; [discriminate|].
  constructor; [exact He|]. apply IH.
  now destruct (first_eligible t rv).
Qed.

Lemma nth_error_close_all_new (s : Instant) (rises : list Instant) :
  forall i r,
    nth_error rises i = Some r -> r < s ->
    nth_error (close_all s (map new_transit rises)) i
    = Some (mkDayTransits r (Some s) []).
Proof.
  intros i r Hn Hr. unfold close_all.
  rewrite map_map. erewrite map_nth_error by eassumption.
  unfold close_at, eligible, new_transit, set_end; simpl.
  apply Z.ltb_lt in Hr. now rewrite Hr.
Qed.

End Matcher.

(** C1 (what the code does).  On the two-pass input [RISE 1, SET 2,
    RISE 3, SET 4] the comparison of line 98, [end.time < test_time_obj],
    lets the second SET event overwrite the end that the first transit got
    from the first SET event: both returned transits end at 4, and the
    first one runs over the second.  The rule of section 4.2, step 2 (an
    assigned end is overwritten only when it is later than the SET
    instant) leaves the first transit at 2 and gives the disjoint transits
    from 1 to 2 and from 3 to 4.  On [RISE 1, RISE 2, SET 3] the code and
    the rule agree. *)
Theorem two_passes_end_at_last_set :
  (chronological [(1, 0); (2, 2); (3, 0); (4, 2)] = true
   /\ find_sat_events (scan_fuel 4) [(1, 0); (2, 2); (3, 0); (4, 2)]
      = Some [mkDayTransits 1 (Some 4) []; mkDayTransits 3 (Some 4) []]
   /\ stated_find_sat_events (scan_fuel 4)
        [(1, 0); (2, 2); (3, 0); (4, 2)]
      = Some [mkDayTransits 1 (Some 2) []; mkDayTransits 3 (Some 4) []])
  /\ (find_sat_events (scan_fuel 3) [(1, 0); (2, 0); (3, 2)]
      = Some [mkDayTransits 1 (Some 3) []; mkDayTransits 2 (Some 3) []]
      /\ stated_find_sat_events (scan_fuel 3) [(1, 0); (2, 0); (3, 2)]
         = Some [mkDayTransits 1 (Some 3) []; mkDayTransits 2 (Some 3) []]).
Proof. repeat split; reflexivity. Qed.

(** Lines 91-103 as they are written.  The SET events are processed in
    input order; the scan of one SET event assigns it to the first transit
    in creation order that passes the test of lines 96-99, restarts, and
    goes on until no transit passes it; a SET event for which no transit
    passes the test leaves all transits as they are. *)
Lemma set_events_close_eligible_transits :
  forall (events : list RawEvent) (fuel : nat),
    (scan_fuel (List.length events) <= fuel)%nat ->
    find_sat_events fuel events
    = Some (map (attach_culminations events)
              (fold_left (fun rv t => close_all t rv) (set_instants events)
                 (map new_transit (rise_instants events))))
    /\ (forall t rv i k,
           first_eligible t rv = Some i ->
           scan (S i + k) t rv 0 = scan k t (assign_end rv i t) 0)
    /\ (forall t rv,
           first_eligible t rv = None ->
           (forall k, (scan_fuel (List.length rv) <= k)%nat ->
                      scan k t rv 0 = Some rv)).
Proof.
  intros events fuel H. split; [|split].
  - rewrite <- open_transits_rises. now apply find_sat_events_closed.
  - intros t rv i k Hf. now apply (scan_reaches_first t rv i 0%nat k).
  - intros t rv Hf k Hk. rewrite scan_from_zero by assumption.
    f_equal. now apply close_all_untouched, first_eligible_none.
Qed.

Example one_pass :
  find_sat_events (scan_fuel 2) [(7200, 0); (7800, 2)]
  = Some [mkDayTransits 7200 (Some 7800) []].
Proof. reflexivity. Qed.

Example rise_without_set :
  find_sat_events (scan_fuel 1) [(7200, 0)]
  = Some [mkDayTransits 7200 None []].
Proof. reflexivity. Qed.

(** C7.  On every finite list of events the matcher returns: with fuel
    [scan_fuel] of the length of the input no scan runs out of fuel, and
    more fuel does not change the result. *)
Theorem find_sat_events_terminates :
  forall (events : list RawEvent) (fuel : nat),
    (scan_fuel (List.length events) <= fuel)%nat ->
    exists rv,
      find_sat_events fuel events = Some rv
      /\ find_sat_events (scan_fuel (List.length events)) events = Some rv.
Proof.
  intros events fuel H. eexists. split.
  - now apply find_sat_events_closed.
  - now apply find_sat_events_closed.
Qed.

Lemma find_sat_events_terminates_witness :
  (scan_fuel (List.length [(1, 0); (2, 0); (3, 2); (4, 2)]) <= 30)%nat
  /\ exists rv,
      find_sat_events 30 [(1, 0); (2, 0); (3, 2); (4, 2)] = Some rv
      /\ find_sat_events
           (scan_fuel (List.length [(1, 0); (2, 0); (3, 2); (4, 2)]))
           [(1, 0); (2, 0); (3, 2); (4, 2)] = Some rv.
Proof.
  split; [vm_compute; lia|].
  apply (find_sat_events_terminates [(1, 0); (2, 0); (3, 2); (4, 2)] 30).
  vm_compute; lia.
Defined.

(** C10.  When the input has exactly one SET event, at instant [s], and two
    RISE events (the [i]-th and the [j]-th) strictly before [s], the
    transits of both RISE events end at [s]. *)
Theorem one_set_closes_both_transits :
  forall (events : list RawEvent) (s r1 r2 : Instant) (i j fuel : nat),
    set_instants events = [s] ->
    nth_error (rise_instants events) i = Some r1 ->
    nth_error (rise_instants events) j = Some r2 ->
    i <> j ->
    r1 < s -> r2 < s ->
    (scan_fuel (List.length events) <= fuel)%nat ->
    exists rv,
      find_sat_events fuel events = Some rv
      /\ List.length rv = List.length (rise_instants events)
      /\ nth_error rv i
         = Some (mkDayTransits r1 (Some s) (culmination_instants events))
      /\ nth_error rv j
         = Some (mkDayTransits r2 (Some s) (culmination_instants events)).
Proof.
  intros events s r1 r2 i j fuel Hs H1 H2 _ Hr1 Hr2 Hfuel.
  eexists. split; [now apply find_sat_events_closed|].
  rewrite Hs, open_transits_rises. simpl.
  split; [|split].
  - unfold close_all. now rewrite !length_map.
  - erewrite map_nth_error
      by (apply nth_error_close_all_new; eassumption).
    now rewrite attach_culminations_from.
  - erewrite map_nth_error
      by (apply nth_error_close_all_new; eassumption).
    now rewrite attach_culminations_from.
Qed.

Lemma one_set_closes_both_transits_witness :
  exists rv,
    find_sat_events 16 [(1, 0); (2, 0); (3, 2)] = Some rv
    /\ List.length rv = List.length (rise_instants [(1, 0); (2, 0); (3, 2)])
    /\ nth_error rv 0
       = Some (mkDayTransits 1 (Some 3)
                 (culmination_instants [(1, 0); (2, 0); (3, 2)]))
    /\ nth_error rv 1
       = Some (mkDayTransits 2 (Some 3)
                 (culmination_instants [(1, 0); (2, 0); (3, 2)])).
Proof.
  apply (one_set_closes_both_transits
           [(1, 0); (2, 0); (3, 2)] 3 1 2 0%nat 1%nat 16%nat);
    first [reflexivity | discriminate | lia | (vm_compute; lia)].
Defined.

(** ** Time grid builder *)

Section TimeGrid.

Variable get_off_list : Sampler.

Lemma make_bounded_time_list_ok (s e : Instant) (st : Duration)
  (xs : list Instant) :
  get_off_list s e st 5 = inr xs ->
  make_bounded_time_list get_off_list s e st
  = inr (s :: filter (fun x => (s <? x) && (x <? e)) xs ++ [e]).
Proof. unfold make_bounded_time_list. intros ->. reflexivity. Qed.

Lemma make_bounded_time_list_error (s e : Instant) (st : Duration) :
  is_error (make_bounded_time_list get_off_list s e st)
  = is_error (get_off_list s e st 5).
Proof.
  unfold make_bounded_time_list.
  now destruct (get_off_list s e st 5).
Qed.

Lemma interior_filter (s e : Instant) (xs : list Instant) :
  Forall (fun x => s < x < e) (filter (fun x => (s <? x) && (x <? e)) xs).
Proof.
  apply Forall_forall. intros x Hx. apply filter_In in Hx.
  destruct Hx as [_ Hx]. apply andb_true_iff in Hx.
  destruct Hx as [H1 H2]. apply Z.ltb_lt in H1, H2. lia.
Qed.

Lemma interior_filter_empty (s e : Instant) (xs : list Instant) :
  e <= s -> filter (fun x => (s <? x) && (x <? e)) xs = [].
Proof.
  intros H. induction xs as [|x xs IH]; simpl; [reflexivity|].
  destruct (s <? x) eqn:H1; destruct (x <? e) eqn:H2; simpl; auto.
  apply Z.ltb_lt in H1, H2. lia.
Qed.

End TimeGrid.

Lemma strictly_increasing_filter (f : Instant -> bool) (l : list Instant) :
  strictly_increasing l -> strictly_increasing (filter f l).
Proof.
  unfold strictly_increasing.
  induction 1 as [|a l Hl IH Ha]; simpl; [constructor|].
  destruct (f a); [|exact IH].
  constructor; [exact IH|].
  apply Forall_forall. intros x Hx. apply filter_In in Hx.
  rewrite Forall_forall in Ha. now apply Ha.
Qed.

Lemma strictly_increasing_snoc (l : list Instant) (e : Instant) :
  strictly_increasing l -> Forall (fun x => x < e) l ->
  strictly_increasing (l ++ [e]).
Proof.
  unfold strictly_increasing.
  induction 1 as [|a l Hl IH Ha]; intros Hb; simpl.
  - repeat constructor.
  - inversion Hb as [|? ? Hae Hle]; subst.
    constructor; [now apply IH|].
    apply Forall_app. split; [exact Ha|]. now constructor.
Qed.

Lemma strictly_increasing_NoDup (l : list Instant) :
  strictly_increasing l -> NoDup l.
Proof.
  unfold strictly_increasing.
  induction 1 as [|a l Hl IH Ha]; constructor; [|exact IH].
  intros Hin. rewrite Forall_forall in Ha. specialize (Ha a Hin). lia.
Qed.

Lemma strictly_increasing_bounded_grid (s e : Instant)
  (mid : list Instant) :
  s < e -> strictly_increasing mid -> Forall (fun x => s < x < e) mid ->
  strictly_increasing (s :: mid ++ [e]).
Proof.
  intros Hse Hmid Hin. unfold strictly_increasing.
  constructor.
  - apply strictly_increasing_snoc; [exact Hmid|].
    eapply Forall_impl; [|exact Hin]. simpl. intros; lia.
  - apply Forall_app. split.
    + eapply Forall_impl; [|exact Hin]. simpl. intros; lia.
    + now constructor.
Qed.

Lemma stepping_samples_increasing (s : Instant) (st : Duration) :
  0 < st ->
  forall n k0,
    strictly_increasing
      (map (fun k => s + Z.of_nat k * st) (seq k0 n)).
Proof.
  intros Hst. unfold strictly_increasing.
  induction n as [|n IH]; intros k0; simpl; constructor.
  - apply IH.
  - apply Forall_forall. intros x Hx. apply in_map_iff in Hx.
    destruct Hx as [k [<- Hk]]. apply in_seq in Hk. nia.
Qed.

Lemma count_occ_once (l : list Instant) (x : Instant) :
  NoDup l -> In x l -> count_occ Z.eq_dec l x = 1%nat.
Proof.
  intros Hnd Hin.
  pose proof (proj1 (NoDup_count_occ Z.eq_dec l) Hnd x) as Hle.
  pose proof (proj1 (count_occ_In Z.eq_dec l x) Hin) as Hge. lia.
Qed.

(** Whatever the sampler is, a strictly increasing answer gives a strictly
    increasing grid between the two bounds. *)
Lemma time_grid_over_increasing_sampler (get_off_list : Sampler)
  (s e : Instant) (st : Duration) (xs : list Instant) :
  s < e ->
  get_off_list s e st 5 = inr xs ->
  strictly_increasing xs ->
  exists mid,
    make_bounded_time_list get_off_list s e st = inr (s :: mid ++ [e])
    /\ Forall (fun x => s < x < e) mid
    /\ strictly_increasing (s :: mid ++ [e]).
Proof.
  intros Hse Hg Hxs.
  exists (filter (fun x => (s <? x) && (x <? e)) xs).
  split; [now apply make_bounded_time_list_ok|].
  split; [apply interior_filter|].
  apply strictly_increasing_bounded_grid; [exact Hse | |].
  - now apply strictly_increasing_filter.
  - apply interior_filter.
Qed.

(** Lines 21-35 hold no check and no handler: the builder fails exactly
    when the one call of the sampler fails, with the sampler's error; when
    the sampler returns and [end <= start], no sample passes the filter and
    the builder returns the two instants [start, end]. *)
Lemma time_grid_fails_only_with_sampler :
  forall (get_off_list : Sampler) (s e : Instant) (st : Duration),
    (forall err, get_off_list s e st 5 = inl err ->
                 make_bounded_time_list get_off_list s e st = inl err)
    /\ (forall xs, get_off_list s e st 5 = inr xs ->
                   is_error (make_bounded_time_list get_off_list s e st)
                   = false)
    /\ (forall xs, get_off_list s e st 5 = inr xs -> e <= s ->
                   make_bounded_time_list get_off_list s e st
                   = inr [s; e]).
Proof.
  intros g s e st. split; [|split].
  - intros err H. unfold make_bounded_time_list. now rewrite H.
  - intros xs H. now rewrite make_bounded_time_list_error, H.
  - intros xs H Hes. rewrite (make_bounded_time_list_ok g s e st xs H).
    now rewrite interior_filter_empty.
Qed.

(** C5.  For [start < end] and [step > 0] the grid built over the stepping
    sampler is [start], then samples strictly between the bounds, then
    [end]; both bounds occur exactly once, no instant occurs twice and the
    sequence is strictly increasing. *)
Theorem time_grid_bounded_and_increasing :
  forall (s e : Instant) (st : Duration),
    s < e -> 0 < st ->
    exists mid,
      make_bounded_time_list stepping_get_off_list s e st
      = inr (s :: mid ++ [e])
      /\ Forall (fun x => s < x < e) mid
      /\ count_occ Z.eq_dec (s :: mid ++ [e]) s = 1%nat
      /\ count_occ Z.eq_dec (s :: mid ++ [e]) e = 1%nat
      /\ NoDup (s :: mid ++ [e])
      /\ strictly_increasing (s :: mid ++ [e]).
Proof.
  intros s e st Hse Hst.
  destruct (time_grid_over_increasing_sampler stepping_get_off_list
              s e st _ Hse eq_refl) as [mid [Hgrid [Hmid Hinc]]].
  { now apply stepping_samples_increasing. }
  pose proof (strictly_increasing_NoDup _ Hinc) as Hnd.
  exists mid. split; [exact Hgrid|]. split; [exact Hmid|].
  split; [|split; [|split; assumption]].
  - apply count_occ_once; [exact Hnd | now left].
  - apply count_occ_once; [exact Hnd|].
    right. apply in_or_app. right. now left.
Qed.

Lemma time_grid_bounded_and_increasing_witness :
  exists mid,
    make_bounded_time_list stepping_get_off_list 0 10 3
    = inr (0 :: mid ++ [10])
    /\ Forall (fun x => 0 < x < 10) mid
    /\ count_occ Z.eq_dec (0 :: mid ++ [10]) 0 = 1%nat
    /\ count_occ Z.eq_dec (0 :: mid ++ [10]) 10 = 1%nat
    /\ NoDup (0 :: mid ++ [10])
    /\ strictly_increasing (0 :: mid ++ [10]).
Proof. apply (time_grid_bounded_and_increasing 0 10 3); lia. Defined.

Example time_grid_sample :
  make_bounded_time_list stepping_get_off_list 0 9 3 = inr [0; 3; 6; 9].
Proof. reflexivity. Qed.

(** ** Catalog builder: the identity key *)

Section Keys.

Lemma has_char_app (c : ascii) (a b : string) :
  has_char c (a ++ b)%string = has_char c a || has_char c b.
Proof.
  induction a as [|x a IH]; simpl; [reflexivity|].
  now rewrite IH, orb_assoc.
Qed.

Lemma digits_no_underscore (d : Decimal.uint) :
  has_char "_" (NilEmpty.string_of_uint d) = false.
Proof. induction d; simpl; auto. Qed.

Lemma str_no_underscore (z : Z) : has_char "_" (str z) = false.
Proof.
  unfold str. destruct (Z.to_int z); simpl;
    apply digits_no_underscore.
Qed.

Lemma str_inj (z1 z2 : Z) : str z1 = str z2 -> z1 = z2.
Proof.
  unfold str. intros H. apply to_int_inj.
  pose proof (NilEmpty.isi (Z.to_int z1)) as H1.
  pose proof (NilEmpty.isi (Z.to_int z2)) as H2.
  rewrite H in H1. congruence.
Qed.

(** A suffix without underscore is delimited by the last underscore. *)
Lemma split_at_last_underscore (n1 n2 s1 s2 : string) :
  has_char "_" s1 = false -> has_char "_" s2 = false ->
  (n1 ++ "_" ++ s1 = n2 ++ "_" ++ s2)%string ->
  n1 = n2 /\ s1 = s2.
Proof.
  intros H1 H2. revert n2.
  induction n1 as [|c n1 IH]; intros [|c2 n2] H; simpl in H.
  - injection H as H. auto.
  - injection H as Hc Hs. exfalso.
    rewrite Hs, has_char_app in H1. simpl in H1.
    now rewrite orb_true_r in H1.
  - injection H as Hc Hs. exfalso.
    rewrite <- Hs, has_char_app in H2. simpl in H2.
    now rewrite orb_true_r in H2.
  - injection H as Hc Hs. subst c2.
    apply IH in Hs. destruct Hs as [-> ->]. auto.
Qed.

Lemma sat_key_inj (a b : EarthSatellite) :
  sat_key a = sat_key b <->
  name a = name b /\ jdsatepoch a = jdsatepoch b.
Proof.
  unfold sat_key. split.
  - intros H. apply split_at_last_underscore in H;
      try apply str_no_underscore.
    destruct H as [Hn Hs]. split; [exact Hn | now apply str_inj].
  - intros [-> ->]. reflexivity.
Qed.


End Keys.

(** ** Catalog builder: deduplication *)

Section Dedup.

Lemma dict_set_keys {V : Type} (k : string) (v : V) (d : dict V) :
  forall k', In k' (map fst (dict_set k v d)) <->
             k' = k \/ In k' (map fst d).
Proof.
  induction d as [|[k0 v0] d IH]; intros k'; simpl.
  - intuition.
  - destruct (String.eqb k k0) eqn:E; simpl.
    + apply String.eqb_eq in E. subst k0. intuition.
    + rewrite IH. intuition.
Qed.

Lemma dict_set_NoDup {V : Type} (k : string) (v : V) (d : dict V) :
  NoDup (map fst d) -> NoDup (map fst (dict_set k v d)).
Proof.
  induction d as [|[k0 v0] d IH]; simpl; intros H.
  - constructor; [intros []|constructor].
  - inversion H as [|? ? Hnotin Hnd]; subst.
    destruct (String.eqb k k0) eqn:E; simpl.
    + apply String.eqb_eq in E. subst k0. now constructor.
    + constructor; [|now apply IH].
      rewrite dict_set_keys. intros [->|Hin]; [|contradiction].
      now rewrite String.eqb_refl in E.
Qed.

Lemma dict_set_keyed (s : EarthSatellite) (d : dict EarthSatellite) :
  keyed d -> keyed (dict_set (sat_key s) s d).
Proof.
  unfold keyed. induction 1 as [|[k0 v0] d Hk Hd IH]; simpl.
  - now repeat constructor.
  - destruct (String.eqb (sat_key s) k0); constructor; auto.
Qed.


Lemma dict_set_fresh {V : Type} (k : string) (v : V) (d : dict V) :
  ~ In k (map fst d) -> dict_set k v d = d ++ [(k, v)].
Proof.
  induction d as [|[k0 v0] d IH]; simpl; intros H; [reflexivity|].
  destruct (String.eqb k k0) eqn:E.
  - apply String.eqb_eq in E. subst k0. exfalso. auto.
  - f_equal. apply IH. auto.
Qed.


Lemma uniq_from_invariant (l : list EarthSatellite) :
  forall d,
    NoDup (map fst d) -> keyed d ->
    NoDup (map fst (uniq_from d l)) /\ keyed (uniq_from d l).
Proof.
  unfold uniq_from.
  induction l as [|s l IH]; intros d Hnd Hk; simpl; [auto|].
  apply IH; [now apply dict_set_NoDup | now apply dict_set_keyed].
Qed.



Lemma uniq_from_fresh (l : list EarthSatellite) :
  forall d,
    NoDup (map fst d ++ map sat_key l) ->
    uniq_from d l = d ++ map (fun s => (sat_key s, s)) l.
Proof.
  unfold uniq_from.
  induction l as [|a l IH]; intros d H; simpl.
  - now rewrite app_nil_r.
  - rewrite dict_set_fresh.
    + rewrite IH.
      * now rewrite <- app_assoc.
      * rewrite map_app. simpl. rewrite <- app_assoc. exact H.
    + intros Hin. apply NoDup_remove_2 in H. apply H.
      apply in_or_app. now left.
Qed.

Lemma keyed_keys (d : dict EarthSatellite) :
  keyed d -> map sat_key (dict_values d) = map fst d.
Proof.
  unfold keyed, dict_values.
  induction 1 as [|[k v] d Hk _ IH]; simpl; [reflexivity|].
  simpl in Hk. now rewrite IH, Hk.
Qed.


Lemma dict_get_none (d : dict EarthSatellite) (k : string) :
  dict_get k d = None -> ~ In k (map fst d).
Proof.
  induction d as [|[k0 v0] d IH]; simpl; [auto|].
  destruct (String.eqb k k0) eqn:E; [discriminate|].
  intros H [Heq|Hin]; [|now apply IH].
  subst k0. now rewrite String.eqb_refl in E.
Qed.





Lemma dedup_keys_NoDup (l : list EarthSatellite) :
  NoDup (map sat_key (dedup l)).
Proof.
  unfold dedup, uniq_sats.
  destruct (uniq_from_invariant l []) as [Hnd Hk];
    [constructor | constructor |].
  unfold uniq_from in *. now rewrite keyed_keys.
Qed.


Lemma make_active_sats_dedup (w : World) (self : Factory) :
  exists self',
    _make_active_sats w self = inr self'
    /\ active_sats self'
       = dedup (concat (map (make_locally_active_sats w (start_utc self))
                          (tles self))).
Proof. eexists. split; reflexivity. Qed.

Lemma init_sets_dates (w : World) (today : Instant) (date : string)
  (days : Z) (sources : list string) (chain : bool) (self : Factory) :
  init w today date days sources chain = inr self ->
  exists s, start_utc self = Some s
            /\ end_utc self = Some (s + TimeDeltaObj_days days).
Proof.
  unfold init, _make_start_utc, _make_active_sats, _make_active_obs.
  simpl.
  destruct (strptime w date) as [[| | |tag]|d]; simpl;
    try discriminate;
    destruct (obs_data w) as [e|data]; simpl; try discriminate;
    intros [= <-]; simpl; eauto.
Qed.

End Dedup.



(** ** Catalog builder: the effective start date *)

(** C9.  When the start-date string does not parse, [_make_start_utc] does
    not raise: the effective start is the start of the current day and the
    effective end is that start plus the horizon in days; the construction
    of the factory then succeeds whenever the observatory configuration can
    be read. *)
Theorem unparseable_start_date_falls_back_to_today :
  forall (w : World) (today : Instant) (date : string) (days : Z)
         (sources : list string) (chain : bool),
    strptime w date = inl ValueError ->
    (exists self,
        _make_start_utc w
          (mkFactory date today None days None sources chain [] [])
        = inr self
        /\ start_utc self = Some (get_start_day today)
        /\ end_utc self
           = Some (get_start_day today + TimeDeltaObj_days days))
    /\ (forall data,
           obs_data w = inr data ->
           exists self,
             init w today date days sources chain = inr self
             /\ start_utc self = Some (get_start_day today)
             /\ end_utc self
                = Some (get_start_day today + TimeDeltaObj_days days)).
Proof.
  intros w today date days sources chain H. split.
  - unfold _make_start_utc. simpl. rewrite H. simpl.
    eexists. repeat split.
  - intros data Hd. unfold init, _make_start_utc. simpl. rewrite H. simpl.
    unfold _make_active_obs. simpl. rewrite Hd. simpl.
    eexists. repeat split.
Qed.

Lemma unparseable_start_date_falls_back_to_today_witness :
  strptime sample_world "not-a-date" = inl ValueError
  /\ exists self,
      init sample_world 1730714400 "not-a-date" 2 ["active"%string] false
      = inr self
      /\ start_utc self = Some 1730678400
      /\ end_utc self = Some (1730678400 + 172800).
Proof.
  split; [reflexivity|].
  destruct (unparseable_start_date_falls_back_to_today sample_world
              1730714400 "not-a-date" 2 ["active"%string] false eq_refl)
    as [_ H].
  apply (H [("Apache Point"%string, (32, -105, 2788))]). reflexivity.
Defined.

Example parseable_start_date :
  exists self,
    init sample_world 1730714400 "2024-01-01" 1 ["active"%string] false
    = inr self
    /\ start_utc self = Some 1704067200
    /\ end_utc self = Some 1704153600.
Proof. eexists. repeat split. Qed.

(** ** Catalog builder: chaining *)

Section Chaining.

Variable end_utc : Instant.

(** *** Sorting *)

Lemma insert_by_perm {A : Type} (key : A -> Z) (x : A) (l : list A) :
  Permutation (x :: l) (insert_by key x l).
Proof.
  induction l as [|y l IH]; simpl; [reflexivity|].
  destruct (key x <? key y); [reflexivity|].
  rewrite perm_swap. now constructor.
Qed.

Lemma sorted_from_perm {A : Type} (key : A -> Z) (l : list A) :
  forall acc,
    Permutation (acc ++ l)
      (fold_left (fun acc x => insert_by key x acc) l acc).
Proof.
  induction l as [|x l IH]; intros acc; simpl.
  - now rewrite app_nil_r.
  - rewrite <- IH. rewrite <- insert_by_perm.
    symmetry. apply Permutation_middle.
Qed.

Lemma sorted_perm {A : Type} (key : A -> Z) (l : list A) :
  Permutation l (sorted key l).
Proof. apply (sorted_from_perm key l []). Qed.

Lemma insert_by_ascending (x : EarthSatellite) (l : list EarthSatellite) :
  ascending l -> ascending (insert_by jdsatepoch x l).
Proof.
  unfold ascending. induction 1 as [|y l Hl IH Hy]; simpl.
  - repeat constructor.
  - destruct (jdsatepoch x <? jdsatepoch y) eqn:E.
    + apply Z.ltb_lt in E. constructor; [now constructor|].
      constructor; [lia|].
      eapply Forall_impl; [|exact Hy]. simpl. intros; lia.
    + apply Z.ltb_ge in E. constructor; [exact IH|].
      eapply Permutation_Forall; [apply insert_by_perm|].
      constructor; [lia | exact Hy].
Qed.

Lemma sorted_ascending (l : list EarthSatellite) :
  ascending (sorted jdsatepoch l).
Proof.
  unfold sorted.
  assert (H : forall acc, ascending acc ->
              ascending (fold_left
                           (fun acc x => insert_by jdsatepoch x acc)
                           l acc)).
  { induction l as [|x l IH]; intros acc Hacc; simpl; [exact Hacc|].
    apply IH. now apply insert_by_ascending. }
  apply H. constructor.
Qed.

(** *** Groups are never empty *)



(** *** One group *)

Lemma filter_all {A : Type} (f : A -> bool) (l : list A) :
  Forall (fun x => f x = true) l -> filter f l = l.
Proof.
  induction 1 as [|a l Ha _ IH]; simpl; [reflexivity|].
  now rewrite Ha, IH.
Qed.

Lemma filter_none {A : Type} (f : A -> bool) (l : list A) :
  Forall (fun x => f x = false) l -> filter f l = [].
Proof.
  induction 1 as [|a l Ha _ IH]; simpl; [reflexivity|].
  now rewrite Ha.
Qed.

Lemma last_cons {A : Type} (l : list A) :
  forall a b, last (b :: l) a = last l b.
Proof.
  induction l as [|c l IH]; intros a b; [reflexivity|].
  change (last (b :: c :: l) a) with (last (c :: l) a).
  now rewrite !IH.
Qed.

Lemma last_item_map_epoch (a : EarthSatellite) (l : list EarthSatellite) :
  last_item (map epoch (a :: l)) = inr (epoch (last l a)).
Proof.
  revert a. induction l as [|b l IH]; intros a; [reflexivity|].
  rewrite last_cons, <- (IH b). unfold last_item. simpl.
  now destruct (rev (map epoch l)).
Qed.

Lemma zip3_chain_slots (l : list EarthSatellite) :
  forall a,
    zip3 (map epoch (a :: l))
      (numpy_diff (map get_mjd (map epoch (a :: l)))
         ++ [total_days (end_utc - epoch (last l a))])
      (a :: l)
    = chain_slots end_utc (a :: l).
Proof.
  induction l as [|b l IH]; intros a; [reflexivity|].
  rewrite last_cons.
  change (chain_slots end_utc (a :: b :: l))
    with ((epoch a, epoch b - epoch a, a) :: chain_slots end_utc (b :: l)).
  rewrite <- IH. reflexivity.
Qed.

Lemma chain_slots_length (l : list EarthSatellite) :
  List.length (chain_slots end_utc l) = List.length l.
Proof.
  induction l as [|a [|b l] IH]; try reflexivity.
  change (chain_slots end_utc (a :: b :: l))
    with ((epoch a, epoch b - epoch a, a) :: chain_slots end_utc (b :: l)).
  simpl in *. now rewrite IH.
Qed.

Lemma chain_slots_sats (l : list EarthSatellite) :
  map slot_sat (chain_slots end_utc l) = l.
Proof.
  induction l as [|a [|b l] IH]; try reflexivity.
  change (chain_slots end_utc (a :: b :: l))
    with ((epoch a, epoch b - epoch a, a) :: chain_slots end_utc (b :: l)).
  simpl in *. now rewrite IH.
Qed.

Lemma chain_slots_starts (l : list EarthSatellite) :
  map slot_start (chain_slots end_utc l) = map epoch l.
Proof.
  induction l as [|a [|b l] IH]; try reflexivity.
  change (chain_slots end_utc (a :: b :: l))
    with ((epoch a, epoch b - epoch a, a) :: chain_slots end_utc (b :: l)).
  simpl in *. now rewrite IH.
Qed.

Lemma chain_slots_back_to_back (l : list EarthSatellite) :
  forall a,
    ascending (a :: l) ->
    Forall (fun s => epoch s < end_utc) (a :: l) ->
    back_to_back (epoch a) end_utc (chain_slots end_utc (a :: l)).
Proof.
  induction l as [|b l IH]; intros a Hasc Hlt.
  - simpl. unfold slot_start, slot_length; simpl.
    inversion Hlt; subst. repeat split; lia.
  - change (chain_slots end_utc (a :: b :: l))
      with ((epoch a, epoch b - epoch a, a)
              :: chain_slots end_utc (b :: l)).
    inversion Hasc as [|? ? Hasc' Ha]; subst.
    inversion Hlt as [|? ? _ Hlt']; subst.
    inversion Ha as [|? ? Hab _]; subst.
    cbn [back_to_back]. unfold slot_start, slot_length; simpl.
    split; [reflexivity|]. split; [unfold epoch; lia|].
    replace (epoch a + (epoch b - epoch a)) with (epoch b) by lia.
    now apply IH.
Qed.


Lemma chain_group_kept (g : list EarthSatellite) :
  g <> [] ->
  Forall (fun s => epoch s < end_utc) g ->
  chain_group end_utc g
  = inr (chain_slots end_utc (sorted jdsatepoch g)).
Proof.
  intros Hne Hlt. unfold chain_group.
  pose proof (sorted_perm jdsatepoch g) as Hp.
  assert (Hlt' : Forall (fun s => epoch s < end_utc)
                   (sorted jdsatepoch g))
    by (eapply Permutation_Forall; eassumption).
  rewrite filter_all.
  2:{ apply Forall_map. eapply Forall_impl; [|exact Hlt'].
      simpl. intros s Hs. now apply Z.ltb_lt. }
  destruct (sorted jdsatepoch g) as [|a l] eqn:E.
  - exfalso. apply Hne. now apply Permutation_nil.
  - rewrite last_item_map_epoch. unfold bind, ret. cbv beta iota.
    now rewrite zip3_chain_slots.
Qed.

(** A group whose epochs are all at or after [end_utc] makes
    [start_dates[-1]] fail. *)
Lemma chain_group_discarded (g : list EarthSatellite) :
  Forall (fun s => end_utc <= epoch s) g ->
  chain_group end_utc g = inl IndexError.
Proof.
  intros H. unfold chain_group.
  rewrite filter_none; [reflexivity|].
  apply Forall_map.
  eapply Permutation_Forall; [apply sorted_perm|].
  eapply Forall_impl; [|exact H]. simpl. intros s Hs.
  now apply Z.ltb_ge.
Qed.

End Chaining.

Lemma chain_groups_all_kept (end_utc : Instant)
  (groups : list (list EarthSatellite)) :
  forall acc,
    Forall (fun g => g <> [] /\ Forall (fun s => epoch s < end_utc) g)
      groups ->
    chain_groups end_utc groups acc
    = inr (acc ++ flat_map
                    (fun g => chain_slots end_utc (sorted jdsatepoch g))
                    groups).
Proof.
  induction groups as [|g groups IH]; intros acc H; simpl.
  - now rewrite app_nil_r.
  - inversion H as [|? ? [Hne Hlt] Hrest]; subst.
    rewrite chain_group_kept by assumption. simpl.
    rewrite IH by assumption. now rewrite <- app_assoc.
Qed.

(** C2 (what the code does).  In chain mode the factory built in the sample
    world for the horizon of one day from 2024-01-01 holds an element set
    of HST whose epoch is three days after the start: its group loses every
    epoch, and [_make_sat_list] raises [IndexError] instead of returning a
    catalog without slots for that group. *)
Theorem chain_mode_discarded_group_raises :
  (self <- init sample_world 1730714400 "2024-01-01" 1
             ["active"%string] true ;;
   _make_sat_list self) = inl IndexError
  /\ chain_group 1704153600 [mkSat "HST" 1704326400 3] = inl IndexError.
Proof. split; reflexivity. Qed.



Example chained_catalog_sample :
  (self <- init sample_world 1730714400 "2024-01-01" 5
             ["active"%string] true ;;
   _make_sat_list self)
  = inr (Chained
           [(1704060000, 10800, mkSat "ISS" 1704060000 2);
            (1704070800, 428400, mkSat "ISS" 1704070800 1);
            (1704326400, 172800, mkSat "HST" 1704326400 3)]).
Proof. reflexivity. Qed.

(* ================================================================== *)
(** * Part III: further properties *)
(* ================================================================== *)

(** ** Transit matcher *)

Section MatcherViews.

Lemma close_all_fold (sets : list Instant) :
  forall rv,
    fold_left (fun rv t => close_all t rv) sets rv
    = map (fun tr => fold_left (fun tr t => close_at t tr) sets tr) rv.
Proof.
  induction sets as [|t sets IH]; intros rv; simpl.
  - now rewrite map_id.
  - rewrite IH. unfold close_all. now rewrite map_map.
Qed.

Lemma close_at_start (t : Instant) (tr : DayTransits) :
  start (close_at t tr) = start tr.
Proof. unfold close_at. now destruct (eligible tr t). Qed.

Lemma close_seq_start (sets : list Instant) :
  forall tr,
    start (fold_left (fun tr t => close_at t tr) sets tr) = start tr.
Proof.
  induction sets as [|t sets IH]; intros tr; simpl; [reflexivity|].
  now rewrite IH, close_at_start.
Qed.

Lemma close_at_latest (p : list Instant) (t : Instant) (tr : DayTransits) :
  latest_set_after p (start tr) (end_ tr) ->
  latest_set_after (p ++ [t]) (start tr) (end_ (close_at t tr)).
Proof.
  unfold close_at, eligible, latest_set_after.
  destruct (end_ tr) as [e|] eqn:E; simpl.
  - intros [Hin [Hre Hmax]].
    destruct (e <? t) eqn:Het; destruct (start tr <? t) eqn:Hst; simpl;
      rewrite ?E;
      try apply Z.ltb_lt in Het; try apply Z.ltb_ge in Het;
      try apply Z.ltb_lt in Hst; try apply Z.ltb_ge in Hst.
    + split; [apply in_or_app; right; now left|]. split; [lia|].
      intros t' Ht'. apply in_app_or in Ht'.
      destruct Ht' as [Ht'|[<-|[]]]; [specialize (Hmax _ Ht')|]; lia.
    + lia.
    + split; [apply in_or_app; now left|]. split; [lia|].
      intros t' Ht'. apply in_app_or in Ht'.
      destruct Ht' as [Ht'|[<-|[]]]; [now apply Hmax | lia].
    + split; [apply in_or_app; now left|]. split; [lia|].
      intros t' Ht'. apply in_app_or in Ht'.
      destruct Ht' as [Ht'|[<-|[]]]; [now apply Hmax | lia].
  - intros Hall.
    destruct (start tr <? t) eqn:Hst; simpl; rewrite ?E;
      try apply Z.ltb_lt in Hst; try apply Z.ltb_ge in Hst.
    + split; [apply in_or_app; right; now left|]. split; [lia|].
      intros t' Ht'. apply in_app_or in Ht'.
      destruct Ht' as [Ht'|[<-|[]]]; [specialize (Hall _ Ht')|]; lia.
    + intros t' Ht'. apply in_app_or in Ht'.
      destruct Ht' as [Ht'|[<-|[]]]; [now apply Hall | lia].
Qed.

Lemma close_seq_latest (sets : list Instant) :
  forall p tr,
    latest_set_after p (start tr) (end_ tr) ->
    latest_set_after (p ++ sets) (start tr)
      (end_ (fold_left (fun tr t => close_at t tr) sets tr)).
Proof.
  induction sets as [|t sets IH]; intros p tr H; simpl.
  - now rewrite app_nil_r.
  - replace (p ++ t :: sets) with ((p ++ [t]) ++ sets)
      by (now rewrite <- app_assoc).
    rewrite <- (close_at_start t tr). apply IH.
    rewrite close_at_start. now apply close_at_latest.
Qed.

(** The end that a list of SET instants leaves is determined by the
    instants that occur in the list. *)
Lemma latest_set_after_unique (s1 s2 : list Instant) (r : Instant)
  (e1 e2 : option Instant) :
  (forall t, In t s1 <-> In t s2) ->
  latest_set_after s1 r e1 -> latest_set_after s2 r e2 -> e1 = e2.
Proof.
  unfold latest_set_after. intros Hs.
  destruct e1 as [e1|]; destruct e2 as [e2|].
  - intros [Hin1 [_ Hmax1]] [Hin2 [_ Hmax2]]. f_equal.
    apply Hs in Hin1. apply Hs in Hin2.
    specialize (Hmax1 _ Hin2). specialize (Hmax2 _ Hin1). lia.
  - intros [Hin1 [Hr _]] Hall. apply Hs in Hin1.
    specialize (Hall _ Hin1). lia.
  - intros Hall [Hin2 [Hr _]]. apply Hs in Hin2.
    specialize (Hall _ Hin2). lia.
  - reflexivity.
Qed.

(** The result as a function of the three views of the input. *)
Lemma find_sat_events_views (events : list RawEvent) (fuel : nat) :
  (scan_fuel (List.length events) <= fuel)%nat ->
  find_sat_events fuel events
  = Some (map (fun r =>
                 mkDayTransits r
                   (end_ (fold_left (fun tr t => close_at t tr)
                            (set_instants events) (new_transit r)))
                   (culmination_instants events))
            (rise_instants events)).
Proof.
  intros H. rewrite find_sat_events_closed by assumption.
  rewrite open_transits_rises, close_all_fold, !map_map. f_equal.
  apply map_ext. intros r. rewrite attach_culminations_from.
  rewrite close_seq_start. simpl. f_equal.
  assert (Hc : forall sets tr,
             culminations tr = [] ->
             culminations (fold_left (fun tr t => close_at t tr) sets tr)
             = []).
  { induction sets as [|t sets IH]; intros tr Htr; simpl; [exact Htr|].
    apply IH. unfold close_at. now destruct (eligible tr t). }
  now rewrite Hc.
Qed.

Lemma filter_filter_implied {A : Type} (f g : A -> bool) (l : list A) :
  (forall x, f x = true -> g x = true) ->
  filter f (filter g l) = filter f l.
Proof.
  intros H. induction l as [|a l IH]; simpl; [reflexivity|].
  destruct (g a) eqn:G; simpl.
  - now rewrite IH.
  - destruct (f a) eqn:F; [|exact IH].
    apply H in F. congruence.
Qed.

End MatcherViews.

(** X1.  The matcher returns one transit per RISE event, in input order,
    each starting at the instant of its RISE event, whatever SET and
    CULMINATE events the input holds. *)
Theorem transits_follow_rises :
  forall (events : list RawEvent) (fuel : nat),
    (scan_fuel (List.length events) <= fuel)%nat ->
    exists rv,
      find_sat_events fuel events = Some rv
      /\ map start rv = rise_instants events
      /\ List.length rv
         = List.length (filter (fun ev => snd ev =? 0) events).
Proof.
  intros events fuel H. eexists. split.
  - now apply find_sat_events_views.
  - rewrite map_map. simpl. rewrite map_id. split; [reflexivity|].
    unfold rise_instants. now rewrite !length_map.
Qed.

Lemma transits_follow_rises_witness :
  exists rv,
    find_sat_events 36 [(4, 1); (1, 0); (9, 2); (3, 0); (5, 7)] = Some rv
    /\ map start rv = rise_instants [(4, 1); (1, 0); (9, 2); (3, 0); (5, 7)]
    /\ List.length rv
       = List.length
           (filter (fun ev => snd ev =? 0)
              [(4, 1); (1, 0); (9, 2); (3, 0); (5, 7)]).
Proof.
  apply (transits_follow_rises [(4, 1); (1, 0); (9, 2); (3, 0); (5, 7)] 36).
  vm_compute; lia.
Defined.

(** X2.  Whatever the order of the events, the end of every returned
    transit is the greatest SET instant of the input when that instant is
    after the start of the transit, and null otherwise: an end is always a
    SET instant of the input strictly after the start. *)
Theorem transit_ends_at_latest_set :
  forall (events : list RawEvent) (fuel : nat),
    (scan_fuel (List.length events) <= fuel)%nat ->
    exists rv,
      find_sat_events fuel events = Some rv
      /\ Forall (fun tr =>
                   latest_set_after (set_instants events)
                     (start tr) (end_ tr)) rv.
Proof.
  intros events fuel H. eexists. split.
  - now apply find_sat_events_views.
  - apply Forall_forall. intros tr Hin. apply in_map_iff in Hin.
    destruct Hin as [r [<- _]]. simpl.
    apply (close_seq_latest (set_instants events) [] (new_transit r)).
    simpl. intros t [].
Qed.

Lemma transit_ends_at_latest_set_witness :
  exists rv,
    find_sat_events 36 [(1, 0); (2, 2); (3, 0); (4, 2); (5, 0)] = Some rv
    /\ Forall (fun tr =>
                 latest_set_after
                   (set_instants [(1, 0); (2, 2); (3, 0); (4, 2); (5, 0)])
                   (start tr) (end_ tr)) rv.
Proof.
  apply (transit_ends_at_latest_set
           [(1, 0); (2, 2); (3, 0); (4, 2); (5, 0)] 36).
  vm_compute; lia.
Defined.

(** X3.  The result does not depend on the order or on the repetition of
    the SET events: two inputs with the same RISE instants, the same
    CULMINATE instants and the same set of SET instants give the same
    transits. *)
Theorem set_order_is_irrelevant :
  forall (ev1 ev2 : list RawEvent) (fuel1 fuel2 : nat),
    (scan_fuel (List.length ev1) <= fuel1)%nat ->
    (scan_fuel (List.length ev2) <= fuel2)%nat ->
    rise_instants ev1 = rise_instants ev2 ->
    culmination_instants ev1 = culmination_instants ev2 ->
    (forall t, In t (set_instants ev1) <-> In t (set_instants ev2)) ->
    find_sat_events fuel1 ev1 = find_sat_events fuel2 ev2.
Proof.
  intros ev1 ev2 fuel1 fuel2 H1 H2 Hr Hc Hs.
  rewrite !find_sat_events_views by assumption.
  rewrite Hr, Hc. f_equal. apply map_ext. intros r. f_equal.
  eapply latest_set_after_unique; [exact Hs | |].
  - apply (close_seq_latest (set_instants ev1) [] (new_transit r)).
    simpl. intros t [].
  - apply (close_seq_latest (set_instants ev2) [] (new_transit r)).
    simpl. intros t [].
Qed.

Lemma set_order_is_irrelevant_witness :
  find_sat_events 16 [(1, 0); (5, 2); (3, 2)]
  = find_sat_events 25 [(3, 2); (1, 0); (5, 2); (3, 2)].
Proof.
  apply (set_order_is_irrelevant
           [(1, 0); (5, 2); (3, 2)] [(3, 2); (1, 0); (5, 2); (3, 2)] 16 25).
  - vm_compute; lia.
  - vm_compute; lia.
  - reflexivity.
  - reflexivity.
  - intros t. simpl. intuition.
Defined.

(** X4.  Events whose flag is neither 0, 1 nor 2 have no effect on the
    result. *)
Theorem unknown_flags_are_ignored :
  forall (events : list RawEvent) (fuel : nat),
    (scan_fuel (List.length events) <= fuel)%nat ->
    find_sat_events fuel (filter known_flag events)
    = find_sat_events fuel events.
Proof.
  intros events fuel H.
  rewrite (find_sat_events_views events) by assumption.
  rewrite find_sat_events_views.
  - unfold rise_instants, culmination_instants, set_instants.
    rewrite !filter_filter_implied; [reflexivity| | |];
      intros [t f] Hf; unfold known_flag; simpl in *; rewrite Hf;
      now rewrite ?orb_true_r.
  - eapply Nat.le_trans; [|exact H].
    apply scan_fuel_mono, length_filter_le.
Qed.

Lemma unknown_flags_are_ignored_witness :
  find_sat_events 16 (filter known_flag [(1, 0); (2, 5); (3, 2)])
  = find_sat_events 16 [(1, 0); (2, 5); (3, 2)].
Proof.
  apply (unknown_flags_are_ignored [(1, 0); (2, 5); (3, 2)] 16).
  vm_compute; lia.
Defined.

(** ** Time grid builder *)

(** X5.  Whatever the sampler answers, the grid starts with [start], ends
    with [end], has at least two instants, and holds, besides the two
    bounds, exactly the sampled instants strictly between them: no sample
    at or outside a bound is kept and nothing else is added. *)
Theorem time_grid_members :
  forall (get_off_list : Sampler) (s e : Instant) (st : Duration)
         (xs : list Instant),
    get_off_list s e st 5 = inr xs ->
    exists grid,
      make_bounded_time_list get_off_list s e st = inr grid
      /\ hd_error grid = Some s
      /\ last grid s = e
      /\ (2 <= List.length grid)%nat
      /\ (forall x, In x grid <->
                    x = s \/ x = e \/ (In x xs /\ s < x < e)).
Proof.
  intros g s e st xs H.
  exists (s :: filter (fun x => (s <? x) && (x <? e)) xs ++ [e]).
  split; [now apply make_bounded_time_list_ok|].
  split; [reflexivity|].
  split.
  { change (s :: filter (fun x => (s <? x) && (x <? e)) xs ++ [e])
      with ((s :: filter (fun x => (s <? x) && (x <? e)) xs) ++ [e]).
    apply last_last. }
  split; [simpl; rewrite length_app; simpl; lia|].
  intros x. simpl. rewrite in_app_iff, filter_In, andb_true_iff.
  rewrite !Z.ltb_lt. simpl. intuition.
Qed.

Lemma time_grid_members_witness :
  exists grid,
    make_bounded_time_list stepping_get_off_list 0 10 5 = inr grid
    /\ hd_error grid = Some 0
    /\ last grid 0 = 10
    /\ (2 <= List.length grid)%nat
    /\ (forall x, In x grid <->
                  x = 0 \/ x = 10 \/ (In x [0; 5; 10] /\ 0 < x < 10)).
Proof.
  apply (time_grid_members stepping_get_off_list 0 10 5 [0; 5; 10]).
  reflexivity.
Defined.

(** ** Catalog builder: order of the catalog *)

Section DictOrder.

Lemma dict_set_add_key {V : Type} (k : string) (v : V) (d : dict V) :
  map fst (dict_set k v d) = add_key k (map fst d).
Proof.
  unfold add_key. induction d as [|[k0 v0] d IH]; simpl; [reflexivity|].
  destruct (String.eqb k k0) eqn:E; simpl.
  - apply String.eqb_eq in E. now subst k0.
  - rewrite IH. now destruct (existsb (String.eqb k) (map fst d)).
Qed.

Lemma dict_append_add_key {V : Type} (k : string) (v : V)
  (d : dict (list V)) :
  map fst (dict_append k v d) = add_key k (map fst d).
Proof.
  unfold add_key. induction d as [|[k0 v0] d IH]; simpl; [reflexivity|].
  destruct (String.eqb k k0) eqn:E; simpl.
  - reflexivity.
  - rewrite IH. now destruct (existsb (String.eqb k) (map fst d)).
Qed.

Lemma filter_filter {A : Type} (f g : A -> bool) (l : list A) :
  filter f (filter g l) = filter (fun x => g x && f x) l.
Proof.
  induction l as [|a l IH]; simpl; [reflexivity|].
  destruct (g a); simpl; [destruct (f a)|]; now rewrite ?IH.
Qed.

Lemma add_keys_distinct (ks : list string) :
  forall acc,
    fold_left (fun acc k => add_key k acc) ks acc
    = acc ++ filter (fun k => negb (existsb (String.eqb k) acc))
               (distinct ks).
Proof.
  induction ks as [|k ks IH]; intros acc; simpl.
  - now rewrite app_nil_r.
  - rewrite IH. unfold add_key.
    destruct (existsb (String.eqb k) acc) eqn:E; simpl.
    + f_equal. rewrite filter_filter. apply filter_ext_in.
      intros k' _. destruct (String.eqb k' k) eqn:E'; simpl; [|reflexivity].
      apply String.eqb_eq in E'. subst k'. now rewrite E.
    + rewrite <- app_assoc. simpl. do 2 f_equal.
      rewrite filter_filter. apply filter_ext.
      intros k'. rewrite existsb_app. simpl.
      rewrite orb_false_r, negb_orb. apply andb_comm.
Qed.

Lemma uniq_from_keys (l : list EarthSatellite) :
  forall d,
    map fst (uniq_from d l)
    = fold_left (fun acc k => add_key k acc) (map sat_key l) (map fst d).
Proof.
  unfold uniq_from. induction l as [|a l IH]; intros d; simpl;
    [reflexivity|].
  now rewrite IH, dict_set_add_key.
Qed.

Lemma NoDup_map_finer {A B C : Type} (f : A -> B) (g : A -> C)
  (l : list A) :
  (forall a b, g a = g b -> f a = f b) ->
  NoDup (map f l) -> NoDup (map g l).
Proof.
  intros H. induction l as [|a l IH]; simpl; intros Hnd; constructor.
  - inversion Hnd as [|? ? Hn _]; subst. intros Hin. apply Hn.
    apply in_map_iff in Hin. destruct Hin as [b [Hb Hin]].
    apply in_map_iff. exists b. split; [now apply H | exact Hin].
  - inversion Hnd; subst. now apply IH.
Qed.

End DictOrder.

(** X8.  The catalog lists the loaded objects in the order in which their
    keys first appear in the concatenated answers of the sources. *)
Theorem dedup_first_appearance_order :
  forall (l : list EarthSatellite),
    map sat_key (dedup l) = distinct (map sat_key l).
Proof.
  intros l. unfold dedup, uniq_sats.
  change (fold_left (fun d sat => dict_set (sat_key sat) sat d) l [])
    with (uniq_from [] l).
  destruct (uniq_from_invariant l []) as [_ Hk];
    [constructor | constructor |].
  rewrite keyed_keys by assumption.
  rewrite uniq_from_keys, add_keys_distinct. simpl.
  apply filter_all. apply Forall_forall. reflexivity.
Qed.

(** X9.  When no two loaded records agree on both [name] and
    [model.jdsatepoch], the two fields that the key of line 179 is built
    from, deduplication returns the loaded records unchanged and in
    order. *)
Theorem dedup_keeps_distinct_objects :
  forall (l : list EarthSatellite),
    NoDup (map (fun s => (name s, jdsatepoch s)) l) ->
    dedup l = l.
Proof.
  intros l H.
  assert (Hk : NoDup (map sat_key l)).
  { eapply NoDup_map_finer; [|exact H].
    intros a b Hab. apply sat_key_inj in Hab.
    destruct Hab as [-> ->]. reflexivity. }
  unfold dedup, uniq_sats.
  change (fold_left (fun d sat => dict_set (sat_key sat) sat d) l [])
    with (uniq_from [] l).
  rewrite uniq_from_fresh by exact Hk.
  simpl. unfold dict_values. rewrite map_map. simpl. apply map_id.
Qed.

Lemma dedup_keeps_distinct_objects_witness :
  dedup [mkSat "ISS" 10 1; mkSat "ISS" 12 2; mkSat "HST" 10 3]
  = [mkSat "ISS" 10 1; mkSat "ISS" 12 2; mkSat "HST" 10 3].
Proof.
  apply dedup_keeps_distinct_objects. simpl.
  repeat constructor; simpl; intuition discriminate.
Defined.

(** ** Catalog builder: grouping by name *)

Section Grouping.

Lemma dict_get_append (k n : string) (v : EarthSatellite)
  (d : dict (list EarthSatellite)) :
  dict_get n (dict_append k v d)
  = if String.eqb n k
    then Some (match dict_get k d with
               | Some vs => vs ++ [v]
               | None => [v]
               end)
    else dict_get n d.
Proof.
  induction d as [|[k0 vs] d IH]; simpl.
  - reflexivity.
  - destruct (String.eqb k k0) eqn:E; simpl.
    + apply String.eqb_eq in E. subst k0.
      now destruct (String.eqb n k).
    + rewrite IH. destruct (String.eqb n k0) eqn:E0.
      * apply String.eqb_eq in E0. subst k0.
        rewrite String.eqb_sym in E. now rewrite E.
      * reflexivity.
Qed.

Lemma organized_from_get (n : string) (sats : list EarthSatellite) :
  forall d,
    dict_get n
      (fold_left (fun d sat => dict_append (name sat) sat d) sats d)
    = match dict_get n d, named n sats with
      | None, [] => None
      | None, g => Some g
      | Some vs, g => Some (vs ++ g)
      end.
Proof.
  unfold named. induction sats as [|a sats IH]; intros d; simpl.
  - destruct (dict_get n d); [now rewrite app_nil_r | reflexivity].
  - rewrite IH, dict_get_append. rewrite (String.eqb_sym (name a) n).
    destruct (String.eqb n (name a)) eqn:E.
    + apply String.eqb_eq in E. subst n.
      destruct (dict_get (name a) d); [now rewrite <- app_assoc|].
      reflexivity.
    + reflexivity.
Qed.

Lemma organized_from_keys (sats : list EarthSatellite) :
  forall d,
    map fst (fold_left (fun d sat => dict_append (name sat) sat d) sats d)
    = fold_left (fun acc k => add_key k acc) (map name sats) (map fst d).
Proof.
  induction sats as [|a sats IH]; intros d; simpl; [reflexivity|].
  now rewrite IH, dict_append_add_key.
Qed.

Lemma distinct_NoDup (ks : list string) : NoDup (distinct ks).
Proof.
  induction ks as [|k ks IH]; simpl; constructor.
  - intros H. apply filter_In in H. destruct H as [_ H].
    now rewrite String.eqb_refl in H.
  - now apply NoDup_filter.
Qed.

Lemma dict_get_of_entry {V : Type} (d : dict V) (k : string) (v : V) :
  NoDup (map fst d) -> In (k, v) d -> dict_get k d = Some v.
Proof.
  induction d as [|[k0 v0] d IH]; simpl; intros Hnd Hin; [contradiction|].
  inversion Hnd as [|? ? Hn Hnd']; subst.
  destruct Hin as [[= -> ->]|Hin].
  - now rewrite String.eqb_refl.
  - destruct (String.eqb k k0) eqn:E.
    + apply String.eqb_eq in E. subst k0. exfalso. apply Hn.
      apply in_map_iff. now exists (k, v).
    + now apply IH.
Qed.

Lemma dict_get_entry {V : Type} (d : dict V) (k : string) (v : V) :
  dict_get k d = Some v -> In (k, v) d.
Proof.
  induction d as [|[k0 v0] d IH]; simpl; [discriminate|].
  destruct (String.eqb k k0) eqn:E.
  - apply String.eqb_eq in E. subst k0. intros [= ->]. now left.
  - intros H. right. now apply IH.
Qed.

Lemma dict_append_perm (k : string) (v : EarthSatellite)
  (d : dict (list EarthSatellite)) :
  Permutation (v :: concat (dict_values d))
    (concat (dict_values (dict_append k v d))).
Proof.
  unfold dict_values. induction d as [|[k0 vs] d IH]; simpl.
  - reflexivity.
  - destruct (String.eqb k k0); simpl.
    + rewrite <- app_assoc. simpl.
      apply Permutation_cons_app. reflexivity.
    + rewrite <- IH. apply Permutation_middle.
Qed.

Lemma organized_sats_perm (sats : list EarthSatellite) :
  Permutation sats (concat (dict_values (organized_sats sats))).
Proof.
  unfold organized_sats.
  assert (H : forall d,
             Permutation (concat (dict_values d) ++ sats)
               (concat (dict_values
                          (fold_left
                             (fun d sat => dict_append (name sat) sat d)
                             sats d)))).
  { induction sats as [|a sats IH]; intros d; simpl.
    - now rewrite app_nil_r.
    - rewrite <- IH. rewrite <- dict_append_perm.
      symmetry. apply Permutation_middle. }
  apply (H []).
Qed.

End Grouping.

(** X10.  Grouping by name: the groups are listed in the order in which
    the names first appear in the catalog, no name has two groups, and the
    group of a name is exactly the list of the records with that name, in
    catalog order; every record is in the group of its name, and the groups
    together hold each record as often as the catalog does. *)
Theorem groups_are_the_records_of_a_name :
  forall (sats : list EarthSatellite),
    map fst (organized_sats sats) = distinct (map name sats)
    /\ NoDup (map fst (organized_sats sats))
    /\ (forall n g, In (n, g) (organized_sats sats) ->
                    g = named n sats /\ g <> [])
    /\ (forall s, In s sats ->
                  In (name s, named (name s) sats) (organized_sats sats))
    /\ Permutation sats (concat (dict_values (organized_sats sats))).
Proof.
  intros sats.
  assert (Hkeys : map fst (organized_sats sats) = distinct (map name sats)).
  { unfold organized_sats. rewrite organized_from_keys, add_keys_distinct.
    simpl. apply filter_all. apply Forall_forall. reflexivity. }
  assert (Hnd : NoDup (map fst (organized_sats sats)))
    by (rewrite Hkeys; apply distinct_NoDup).
  assert (Hget : forall n,
             dict_get n (organized_sats sats)
             = match named n sats with [] => None | g => Some g end).
  { intros n. unfold organized_sats. now rewrite organized_from_get. }
  split; [exact Hkeys|]. split; [exact Hnd|].
  split; [|split; [|apply organized_sats_perm]].
  - intros n g Hin. apply dict_get_of_entry in Hin; [|exact Hnd].
    rewrite Hget in Hin. destruct (named n sats); [discriminate|].
    injection Hin as <-. split; [reflexivity | discriminate].
  - intros s Hin. apply dict_get_entry. rewrite Hget.
    destruct (named (name s) sats) eqn:E; [|reflexivity].
    exfalso. assert (Hs : In s (named (name s) sats)).
    { apply filter_In. split; [exact Hin | apply String.eqb_refl]. }
    now rewrite E in Hs.
Qed.

Example groups_sample :
  organized_sats
    [mkSat "ISS" 40 1; mkSat "HST" 20 7; mkSat "ISS" 10 2]
  = [("ISS"%string, [mkSat "ISS" 40 1; mkSat "ISS" 10 2]);
     ("HST"%string, [mkSat "HST" 20 7])].
Proof. reflexivity. Qed.

(** ** Catalog builder: chaining with discarded epochs *)

Section Discarding.

Variable end_utc : Instant.

Lemma filter_map_comm {A B : Type} (f : B -> bool) (g : A -> B)
  (l : list A) :
  filter f (map g l) = map g (filter (fun a => f (g a)) l).
Proof.
  induction l as [|a l IH]; simpl; [reflexivity|].
  destruct (f (g a)); simpl; now rewrite IH.
Qed.

Lemma filter_perm {A : Type} (f : A -> bool) (l l' : list A) :
  Permutation l l' -> Permutation (filter f l) (filter f l').
Proof.
  induction 1 as [|a l l' _ IH|a b l|l l' l'' _ IH1 _ IH2]; simpl.
  - constructor.
  - destruct (f a); [now constructor | exact IH].
  - destruct (f a); destruct (f b); try reflexivity. apply perm_swap.
  - now rewrite IH1.
Qed.

(** In ascending order the kept records come first. *)
Lemma ascending_kept_prefix (l : list EarthSatellite) :
  ascending l ->
  exists dropped, l = kept end_utc l ++ dropped.
Proof.
  unfold ascending, kept. induction 1 as [|a l Hl IH Ha]; simpl.
  - now exists [].
  - destruct (epoch a <? end_utc) eqn:E.
    + destruct IH as [dropped IH]. exists dropped. simpl. now f_equal.
    + exists (a :: l). apply Z.ltb_ge in E.
      rewrite filter_none; [reflexivity|].
      eapply Forall_impl; [|exact Ha]. simpl. intros s Hs.
      apply Z.ltb_ge. unfold epoch in *. lia.
Qed.

Lemma ascending_kept (l : list EarthSatellite) :
  ascending l -> ascending (kept end_utc l).
Proof.
  unfold ascending, kept. induction 1 as [|a l Hl IH Ha]; simpl.
  - constructor.
  - destruct (epoch a <? end_utc); [|exact IH].
    constructor; [exact IH|].
    apply Forall_forall. intros s Hs. apply filter_In in Hs.
    rewrite Forall_forall in Ha. now apply Ha.
Qed.

Lemma zip3_truncate {A B C : Type} (la : list A) :
  forall (lb : list B) (lc ld : list C),
    List.length la = List.length lc ->
    zip3 la lb (lc ++ ld) = zip3 la lb lc.
Proof.
  induction la as [|a la IH]; intros lb lc ld H.
  - reflexivity.
  - destruct lc as [|c lc]; [discriminate|].
    destruct lb as [|b lb]; [reflexivity|].
    simpl. f_equal. apply IH. now injection H.
Qed.

(** The loop body for one group, whatever its epochs are. *)
Lemma chain_group_general (g : list EarthSatellite) :
  chain_group end_utc g
  = match kept end_utc (sorted jdsatepoch g) with
    | [] => inl IndexError
    | a :: k => inr (chain_slots end_utc (a :: k))
    end.
Proof.
  unfold chain_group.
  destruct (ascending_kept_prefix _ (sorted_ascending g)) as [dropped Hl].
  rewrite filter_map_comm.
  change (filter (fun a => epoch a <? end_utc) (sorted jdsatepoch g))
    with (kept end_utc (sorted jdsatepoch g)).
  destruct (kept end_utc (sorted jdsatepoch g)) as [|a k] eqn:E.
  - reflexivity.
  - rewrite last_item_map_epoch. unfold bind, ret. cbv beta iota.
    rewrite Hl, zip3_truncate by apply length_map.
    now rewrite zip3_chain_slots.
Qed.

Lemma kept_nil_iff (l : list EarthSatellite) :
  kept end_utc l = [] <-> Forall (fun s => end_utc <= epoch s) l.
Proof.
  unfold kept. induction l as [|a l IH]; simpl.
  - split; constructor.
  - destruct (epoch a <? end_utc) eqn:E.
    + apply Z.ltb_lt in E. split; [discriminate|].
      intros H. inversion H; subst. lia.
    + apply Z.ltb_ge in E. rewrite IH. split.
      * now constructor.
      * intros H. now inversion H.
Qed.

Lemma chain_slots_own_epoch (l : list EarthSatellite) :
  Forall (fun sl => slot_start sl = epoch (slot_sat sl))
    (chain_slots end_utc l).
Proof.
  induction l as [|a [|b l] IH].
  - constructor.
  - repeat constructor.
  - change (chain_slots end_utc (a :: b :: l))
      with ((epoch a, epoch b - epoch a, a)
              :: chain_slots end_utc (b :: l)).
    constructor; [reflexivity | exact IH].
Qed.

(** The loop over the groups, whatever their epochs are. *)
Lemma chain_groups_general (groups : list (list EarthSatellite)) :
  forall acc,
    chain_groups end_utc groups acc
    = if forallb
           (fun g => negb (match kept end_utc g with
                           | [] => true
                           | _ :: _ => false
                           end))
           groups
      then inr (acc ++ flat_map
                         (fun g => chain_slots end_utc
                                     (kept end_utc (sorted jdsatepoch g)))
                         groups)
      else inl IndexError.
Proof.
  induction groups as [|g groups IH]; intros acc; simpl.
  - now rewrite app_nil_r.
  - rewrite chain_group_general.
    pose proof (filter_perm (fun s => epoch s <? end_utc) _ _
                  (sorted_perm jdsatepoch g)) as Hp.
    fold (kept end_utc g) in Hp.
    fold (kept end_utc (sorted jdsatepoch g)) in Hp.
    destruct (kept end_utc (sorted jdsatepoch g)) as [|a k] eqn:E.
    + symmetry in Hp. apply Permutation_nil in Hp. rewrite Hp.
      reflexivity.
    + destruct (kept end_utc g) as [|a' k'] eqn:E'.
      * apply Permutation_nil in Hp. discriminate.
      * simpl. rewrite IH.
        destruct (forallb _ groups); [|reflexivity].
        now rewrite <- app_assoc.
Qed.


End Discarding.

(** X11.  The chaining of one group fails exactly when every epoch of the
    group is at or after the overall end (an empty group included), and
    then with [IndexError]; no other error is raised. *)
Theorem chain_group_failure :
  forall (end_utc : Instant) (g : list EarthSatellite) (err : exn),
    chain_group end_utc g = inl err <->
    err = IndexError /\ Forall (fun s => end_utc <= epoch s) g.
Proof.
  intros e g err. rewrite chain_group_general.
  pose proof (filter_perm (fun s => epoch s <? e) _ _
                (sorted_perm jdsatepoch g)) as Hp.
  fold (kept e g) in Hp. fold (kept e (sorted jdsatepoch g)) in Hp.
  rewrite <- kept_nil_iff.
  destruct (kept e (sorted jdsatepoch g)) as [|a k] eqn:E.
  - symmetry in Hp. apply Permutation_nil in Hp. rewrite Hp. split.
    + intros [= <-]. auto.
    + intros [-> _]. reflexivity.
  - split; [discriminate|]. intros [_ H]. rewrite H in Hp.
    apply Permutation_nil in Hp. discriminate.
Qed.

Example chain_group_empty :
  chain_group 100 [] = inl IndexError.
Proof. reflexivity. Qed.

(** X12.  When a group has at least one epoch before the overall end, the
    records at or after the end are dropped and never paired with a window:
    there is one slot per kept record, in ascending order of epoch, every
    slot starts at the epoch of its own record, and the windows are laid
    end to end from the first kept epoch to the overall end. *)
Theorem chain_group_drops_late_epochs :
  forall (end_utc : Instant) (g : list EarthSatellite) (s0 : EarthSatellite),
    In s0 g -> epoch s0 < end_utc ->
    exists slots first,
      chain_group end_utc g = inr slots
      /\ map slot_sat slots = kept end_utc (sorted jdsatepoch g)
      /\ List.length slots = List.length (kept end_utc g)
      /\ Forall (fun sl => slot_start sl = epoch (slot_sat sl)
                           /\ epoch (slot_sat sl) < end_utc
                           /\ In (slot_sat sl) g) slots
      /\ hd_error (map slot_start slots) = Some first
      /\ back_to_back first end_utc slots.
Proof.
  intros e g s0 Hin Hlt. rewrite chain_group_general.
  pose proof (sorted_perm jdsatepoch g) as Hperm.
  pose proof (filter_perm (fun s => epoch s <? e) _ _ Hperm) as Hp.
  fold (kept e g) in Hp. fold (kept e (sorted jdsatepoch g)) in Hp.
  pose proof (ascending_kept e _ (sorted_ascending g)) as Hasc.
  assert (Hall : Forall (fun s => epoch s < e /\ In s g)
                   (kept e (sorted jdsatepoch g))).
  { apply Forall_forall. intros s Hs. apply filter_In in Hs.
    destruct Hs as [Hs1 Hs2]. apply Z.ltb_lt in Hs2. split; [exact Hs2|].
    eapply Permutation_in; [symmetry; exact Hperm | exact Hs1]. }
  destruct (kept e (sorted jdsatepoch g)) as [|a k] eqn:E.
  - exfalso. symmetry in Hp. apply Permutation_nil in Hp.
    assert (Hs : In s0 (kept e g))
      by (apply filter_In; split; [exact Hin | now apply Z.ltb_lt]).
    now rewrite Hp in Hs.
  - exists (chain_slots e (a :: k)), (epoch a).
    split; [reflexivity|].
    split; [apply chain_slots_sats|].
    split.
    { rewrite chain_slots_length. apply Permutation_length.
      now symmetry. }
    split.
    { pose proof (chain_slots_own_epoch e (a :: k)) as Hown.
      pose proof (chain_slots_sats e (a :: k)) as Hsats.
      apply Forall_forall. intros sl Hsl.
      rewrite Forall_forall in Hown, Hall.
      assert (Hk : In (slot_sat sl) (a :: k)).
      { rewrite <- Hsats. now apply in_map. }
      destruct (Hall _ Hk) as [H1 H2].
      split; [now apply Hown | split; assumption]. }
    split.
    { rewrite chain_slots_starts. reflexivity. }
    apply chain_slots_back_to_back; [exact Hasc|].
    eapply Forall_impl; [|exact Hall]. simpl. now intros s [H _].
Qed.

Lemma chain_group_drops_late_epochs_witness :
  exists slots first,
    chain_group 50 [mkSat "ISS" 40 1; mkSat "ISS" 70 3; mkSat "ISS" 10 2]
    = inr slots
    /\ slots = [(10, 30, mkSat "ISS" 10 2); (40, 10, mkSat "ISS" 40 1)]
    /\ first = 10.
Proof.
  destruct (chain_group_drops_late_epochs 50
              [mkSat "ISS" 40 1; mkSat "ISS" 70 3; mkSat "ISS" 10 2]
              (mkSat "ISS" 40 1))
    as [slots [first [H1 [_ [_ [_ [H5 _]]]]]]].
  - now left.
  - reflexivity.
  - exists slots, first. split; [exact H1|].
    assert (Hs : slots
                 = [(10, 30, mkSat "ISS" 10 2); (40, 10, mkSat "ISS" 40 1)]).
    { change (chain_group 50
                [mkSat "ISS" 40 1; mkSat "ISS" 70 3; mkSat "ISS" 10 2])
        with (@inr exn (list Slot)
                [(10, 30, mkSat "ISS" 10 2); (40, 10, mkSat "ISS" 40 1)])
        in H1.
      now injection H1. }
    split; [exact Hs|]. subst slots. now injection H5.
Defined.

(** ** Catalog builder: the slot list and its enumeration *)

Section Enumeration.




Lemma nth_error_flat_map_block {A B : Type} (f : A -> list B) (m : nat) :
  (forall a, List.length (f a) = m) ->
  forall l i a j,
    nth_error l i = Some a -> (j < m)%nat ->
    nth_error (flat_map f l) (i * m + j) = nth_error (f a) j.
Proof.
  intros Hm. induction l as [|a0 l IH]; intros [|i] a j Hn Hj;
    simpl in Hn; try discriminate.
  - injection Hn as ->. simpl.
    apply nth_error_app1. now rewrite Hm.
  - simpl flat_map. rewrite nth_error_app2 by (rewrite Hm; simpl; lia).
    rewrite Hm. replace (S i * m + j - m)%nat with (i * m + j)%nat
      by (simpl; lia).
    now apply IH.
Qed.

Lemma length_flat_map_block {A B : Type} (f : A -> list B) (m : nat) :
  (forall a, List.length (f a) = m) ->
  forall l, List.length (flat_map f l) = (List.length l * m)%nat.
Proof.
  intros Hm. induction l as [|a l IH]; simpl; [reflexivity|].
  now rewrite length_app, Hm, IH.
Qed.

Lemma iter_entries (self : Factory) (sl : SatList) :
  _make_sat_list self = inr sl ->
  __iter__ self
  = inr (flat_map
           (fun current_obs =>
              map (fun entry : option Instant * Z * EarthSatellite =>
                     (fst (fst entry), snd (fst entry),
                      mkPair current_obs (snd entry)))
                  (sat_list_entries self sl))
           (active_observatories self)).
Proof.
  intros H. unfold __iter__. rewrite H. simpl.
  destruct sl as [slots|sats]; simpl; unfold ret; f_equal;
    apply flat_map_ext; intros obs; rewrite map_map; apply map_ext.
  - now intros [[s d] x].
  - reflexivity.
Qed.

Lemma sat_list_entries_length (self : Factory) (sl : SatList) :
  List.length (sat_list_entries self sl) = sat_list_len sl.
Proof. destruct sl; simpl; apply length_map. Qed.

End Enumeration.



(** X14.  [__iter__] and [__len__] fail exactly when [_make_sat_list]
    fails, with its error.  Otherwise [__iter__] yields the cross product
    of observatories and entries of the slot list, observatory-major: with
    [m] entries, the item at position [i * m + j] binds the [i]-th
    observatory to the object of the [j]-th entry and carries the window
    of that entry; [__len__] is the number of items, entries times
    observatories. *)
Theorem iter_is_observatory_major :
  forall (self : Factory),
    (forall err, _make_sat_list self = inl err ->
                 __iter__ self = inl err /\ __len__ self = inl err)
    /\ (forall sl, _make_sat_list self = inr sl ->
          exists items,
            __iter__ self = inr items
            /\ __len__ self = inr (List.length items)
            /\ List.length items
               = (sat_list_len sl
                  * List.length (active_observatories self))%nat
            /\ (forall i j obs entry,
                   nth_error (active_observatories self) i = Some obs ->
                   nth_error (sat_list_entries self sl) j = Some entry ->
                   nth_error items (i * sat_list_len sl + j)
                   = Some (fst (fst entry), snd (fst entry),
                           mkPair obs (snd entry)))).
Proof.
  intros self. split.
  - intros err H. unfold __iter__, __len__. rewrite H.
    split; reflexivity.
  - intros sl H. eexists. split; [exact (iter_entries self sl H)|].
    assert (Hblock : forall obs : Observatories,
               List.length
                 (map (fun entry : option Instant * Z * EarthSatellite =>
                         (fst (fst entry), snd (fst entry),
                          mkPair obs (snd entry)))
                    (sat_list_entries self sl))
               = sat_list_len sl).
    { intros obs. now rewrite length_map, sat_list_entries_length. }
    rewrite (length_flat_map_block _ _ Hblock).
    split; [|split].
    + unfold __len__. rewrite H. simpl. unfold ret. f_equal. lia.
    + lia.
    + intros i j obs entry Hi Hj.
      etransitivity.
      * apply (nth_error_flat_map_block _ _ Hblock _ i obs j Hi).
        rewrite <- (sat_list_entries_length self).
        apply nth_error_Some. congruence.
      * exact (map_nth_error
                 (fun entry : option Instant * Z * EarthSatellite =>
                    (fst (fst entry), snd (fst entry),
                     mkPair obs (snd entry)))
                 j (sat_list_entries self sl) Hj).
Qed.

Lemma iter_is_observatory_major_witness :
  __iter__
    (mkFactory "" 0 (Some 5) 2 (Some 9) [] false
       [mkSat "ISS" 40 1; mkSat "HST" 20 7]
       [mkObs 1 2 3 "A"; mkObs 4 5 6 "B"])
  = inr [(Some 5, 2, mkPair (mkObs 1 2 3 "A") (mkSat "ISS" 40 1));
         (Some 5, 2, mkPair (mkObs 1 2 3 "A") (mkSat "HST" 20 7));
         (Some 5, 2, mkPair (mkObs 4 5 6 "B") (mkSat "ISS" 40 1));
         (Some 5, 2, mkPair (mkObs 4 5 6 "B") (mkSat "HST" 20 7))]
  /\ __len__
       (mkFactory "" 0 (Some 5) 2 (Some 9) [] false
          [mkSat "ISS" 40 1; mkSat "HST" 20 7]
          [mkObs 1 2 3 "A"; mkObs 4 5 6 "B"])
     = inr 4%nat.
Proof.
  destruct (iter_is_observatory_major
              (mkFactory "" 0 (Some 5) 2 (Some 9) [] false
                 [mkSat "ISS" 40 1; mkSat "HST" 20 7]
                 [mkObs 1 2 3 "A"; mkObs 4 5 6 "B"])) as [_ H].
  destruct (H (Plain [mkSat "ISS" 40 1; mkSat "HST" 20 7]) eq_refl)
    as [items [H1 [H2 _]]].
  split; [reflexivity|]. rewrite H2.
  change (__iter__
            (mkFactory "" 0 (Some 5) 2 (Some 9) [] false
               [mkSat "ISS" 40 1; mkSat "HST" 20 7]
               [mkObs 1 2 3 "A"; mkObs 4 5 6 "B"]))
    with (@inr exn (list WorkItem)
            [(Some 5, 2, mkPair (mkObs 1 2 3 "A") (mkSat "ISS" 40 1));
             (Some 5, 2, mkPair (mkObs 1 2 3 "A") (mkSat "HST" 20 7));
             (Some 5, 2, mkPair (mkObs 4 5 6 "B") (mkSat "ISS" 40 1));
             (Some 5, 2, mkPair (mkObs 4 5 6 "B") (mkSat "HST" 20 7))])
    in H1.
  injection H1 as <-. reflexivity.
Defined.

(** X15.  A factory without tracked objects enumerates nothing and has
    length zero, in chain mode too, whatever its observatories and dates
    are: an empty object list is not an error. *)
Theorem empty_catalog_is_not_an_error :
  forall (self : Factory),
    active_sats self = [] ->
    __iter__ self = inr [] /\ __len__ self = inr 0%nat.
Proof.
  intros self H. unfold __iter__, __len__, _make_sat_list. rewrite H.
  assert (Hnil : forall (A B : Type) (l : list A),
             flat_map (fun _ : A => @nil B) l = []).
  { intros A B l. induction l; simpl; auto. }
  destruct (chain_tles self); [destruct (end_utc self)|]; simpl;
    now rewrite Hnil.
Qed.

Lemma empty_catalog_is_not_an_error_witness :
  __iter__ (mkFactory "today" 0 None 120 None [] true [] [mkObs 1 2 3 "A"])
  = inr []
  /\ __len__
       (mkFactory "today" 0 None 120 None [] true [] [mkObs 1 2 3 "A"])
     = inr 0%nat.
Proof. apply empty_catalog_is_not_an_error. reflexivity. Defined.

(** ** Catalog builder: construction followed by chaining *)

Section PositiveWindows.

Lemma group_is_named (sats g : list EarthSatellite) :
  In g (dict_values (organized_sats sats)) ->
  exists n, g = named n sats.
Proof.
  unfold dict_values. intros H. apply in_map_iff in H.
  destruct H as [[n g'] [Hg Hin]]. simpl in Hg. subst g'.
  assert (Hnd : NoDup (map fst (organized_sats sats))).
  { unfold organized_sats. rewrite organized_from_keys, add_keys_distinct.
    simpl. rewrite filter_all by (apply Forall_forall; reflexivity).
    apply distinct_NoDup. }
  apply dict_get_of_entry in Hin; [|exact Hnd].
  unfold organized_sats in Hin. rewrite organized_from_get in Hin.
  simpl in Hin. exists n.
  destruct (named n sats); [discriminate | now injection Hin].
Qed.

Lemma named_keys_NoDup (n : string) (sats : list EarthSatellite) :
  NoDup (map sat_key sats) -> NoDup (map sat_key (named n sats)).
Proof.
  unfold named. induction sats as [|a sats IH]; simpl; intros H.
  - constructor.
  - inversion H as [|? ? Hfresh Hrest]; subst.
    destruct (String.eqb (name a) n); simpl; [|now apply IH].
    constructor; [|now apply IH].
    intros Hin. apply Hfresh. apply in_map_iff in Hin.
    destruct Hin as [b [Hb Hin]]. apply filter_In in Hin.
    apply in_map_iff. exists b. tauto.
Qed.

Lemma NoDup_map_finer_in {A B C : Type} (f : A -> B) (g : A -> C)
  (l : list A) :
  (forall a b, In a l -> In b l -> g a = g b -> f a = f b) ->
  NoDup (map f l) -> NoDup (map g l).
Proof.
  induction l as [|a l IH]; simpl; intros H Hnd; constructor.
  - inversion Hnd as [|? ? Hn _]; subst. intros Hin. apply Hn.
    apply in_map_iff in Hin. destruct Hin as [b [Hb Hin]].
    apply in_map_iff. exists b. split; [|exact Hin].
    apply H; auto.
  - inversion Hnd; subst. apply IH; auto.
Qed.

Lemma named_distinct_epochs (n : string) (sats : list EarthSatellite) :
  NoDup (map sat_key sats) ->
  NoDup (map jdsatepoch (named n sats)).
Proof.
  intros H. unfold named.
  apply (NoDup_map_finer_in sat_key jdsatepoch).
  - intros a b Ha Hb Hab. apply filter_In in Ha, Hb.
    destruct Ha as [_ Ha]. destruct Hb as [_ Hb].
    apply String.eqb_eq in Ha, Hb. apply sat_key_inj. split; congruence.
  - now apply named_keys_NoDup.
Qed.

Lemma ascending_strict (l : list EarthSatellite) :
  ascending l -> NoDup (map jdsatepoch l) ->
  StronglySorted (fun a b => jdsatepoch a < jdsatepoch b) l.
Proof.
  unfold ascending. induction 1 as [|a l Hl IH Ha]; simpl; intros Hnd;
    constructor.
  - inversion Hnd; subst. now apply IH.
  - inversion Hnd as [|? ? Hn _]; subst.
    apply Forall_forall. intros b Hb.
    rewrite Forall_forall in Ha. specialize (Ha b Hb).
    assert (jdsatepoch a <> jdsatepoch b).
    { intros Heq. apply Hn. rewrite Heq. now apply in_map. }
    lia.
Qed.

Lemma strict_kept (e : Instant) (l : list EarthSatellite) :
  StronglySorted (fun a b => jdsatepoch a < jdsatepoch b) l ->
  StronglySorted (fun a b => jdsatepoch a < jdsatepoch b) (kept e l).
Proof.
  unfold kept. induction 1 as [|a l Hl IH Ha]; simpl; [constructor|].
  destruct (epoch a <? e); [|exact IH].
  constructor; [exact IH|].
  apply Forall_forall. intros s Hs. apply filter_In in Hs.
  rewrite Forall_forall in Ha. now apply Ha.
Qed.

Lemma chain_slots_positive (e : Instant) (l : list EarthSatellite) :
  StronglySorted (fun a b => jdsatepoch a < jdsatepoch b) l ->
  Forall (fun s => epoch s < e) l ->
  Forall (fun sl => 0 < slot_length sl) (chain_slots e l).
Proof.
  induction l as [|a [|b l] IH]; intros Hs Hlt.
  - constructor.
  - inversion Hlt; subst. repeat constructor.
    unfold slot_length; simpl. lia.
  - change (chain_slots e (a :: b :: l))
      with ((epoch a, epoch b - epoch a, a) :: chain_slots e (b :: l)).
    inversion Hs as [|? ? Hs' Ha]; subst.
    inversion Hlt as [|? ? _ Hlt']; subst.
    inversion Ha as [|? ? Hab _]; subst.
    constructor; [unfold slot_length, epoch; simpl; lia|].
    now apply IH.
Qed.

Lemma init_catalog (w : World) (today : Instant) (date : string)
  (days : Z) (sources : list string) (chain : bool) (self : Factory) :
  init w today date days sources chain = inr self ->
  NoDup (map sat_key (active_sats self)) /\ chain_tles self = chain.
Proof.
  unfold init, _make_start_utc, _make_active_sats, _make_active_obs.
  simpl.
  destruct (strptime w date) as [[| | |tag]|d]; simpl;
    try discriminate;
    destruct (obs_data w) as [e|data]; simpl; try discriminate;
    intros [= <-]; simpl; split; try reflexivity;
    apply dedup_keys_NoDup.
Qed.

End PositiveWindows.

(** X16.  After a successful construction in chain mode, every slot that
    [_make_sat_list] returns has a strictly positive length: since the
    catalog holds no two records of one name and epoch, no two slots of a
    name start at the same instant and no window is empty. *)
Theorem constructed_chain_has_positive_windows :
  forall (w : World) (today : Instant) (date : string) (days : Z)
         (sources : list string) (self : Factory) (slots : list Slot),
    init w today date days sources true = inr self ->
    _make_sat_list self = inr (Chained slots) ->
    Forall (fun sl => 0 < slot_length sl) slots.
Proof.
  intros w today date days sources self slots Hinit Hlist.
  destruct (init_catalog _ _ _ _ _ _ _ Hinit) as [Hnd Hchain].
  destruct (init_sets_dates _ _ _ _ _ _ _ Hinit) as [s [_ Hend]].
  unfold _make_sat_list in Hlist. rewrite Hchain, Hend in Hlist.
  rewrite chain_groups_general in Hlist.
  destruct (forallb _ _); [|discriminate].
  simpl in Hlist. injection Hlist as <-.
  apply Forall_forall. intros sl Hsl.
  apply in_flat_map in Hsl. destruct Hsl as [g [Hg Hsl]].
  destruct (group_is_named _ _ Hg) as [n ->].
  pose proof (named_distinct_epochs n _ Hnd) as Hep.
  pose proof (sorted_perm jdsatepoch (named n (active_sats self))) as Hp.
  assert (Hstrict : StronglySorted
                      (fun a b => jdsatepoch a < jdsatepoch b)
                      (sorted jdsatepoch (named n (active_sats self)))).
  { apply ascending_strict; [apply sorted_ascending|].
    eapply Permutation_NoDup; [|exact Hep].
    now apply Permutation_map. }
  assert (Hpos : Forall (fun sl => 0 < slot_length sl)
                   (chain_slots (s + TimeDeltaObj_days days)
                      (kept (s + TimeDeltaObj_days days)
                         (sorted jdsatepoch
                            (named n (active_sats self)))))).
  { apply chain_slots_positive; [now apply strict_kept|].
    apply Forall_forall. intros x Hx. apply filter_In in Hx.
    now apply Z.ltb_lt. }
  rewrite Forall_forall in Hpos. now apply Hpos.
Qed.

Lemma constructed_chain_has_positive_windows_witness :
  exists self slots,
    init sample_world 1730714400 "2024-01-01" 5 ["active"%string] true
    = inr self
    /\ _make_sat_list self = inr (Chained slots)
    /\ Forall (fun sl => 0 < slot_length sl) slots.
Proof.
  eexists. eexists. split; [reflexivity|]. split; [reflexivity|].
  eapply (constructed_chain_has_positive_windows sample_world
            1730714400 "2024-01-01" 5 ["active"%string]);
    reflexivity.
Defined.
